(** * Spartan UI MCP server: HTML extraction, fetch cache, disk cache, warmer

    A shallow embedding of [tools/utils.js], [tools/cache.js] and
    [tools/cache-warmup.js], with the properties of the extraction and
    caching subsystem stated and proved over it.

    Conventions of the embedding.
    - A JavaScript string is a [text]: the list of its code units, here
      restricted to code units below 256 ([ascii]).
    - A regular-expression literal of the source is a [regex] term; the
      matcher [rmatch] is a backtracking matcher in continuation-passing
      style with the priorities of the ECMAScript semantics (left
      alternative first, greedy or lazy repetition as written).
    - Files hold JSON documents; a file is kept as the [json] value that
      [JSON.parse] returns on it.  Paths are POSIX paths.
    - An async function is run to its end before the next one starts;
      every reading of the clock and every response of the network is a
      parameter of the call that takes it. *)

From Stdlib Require Import List Ascii String ZArith Lia Bool Arith.
From stdpp Require Import base option list gmap strings pretty.
Import ListNotations.

Set Default Proof Using "Type".
Set Warnings "-register-all".

(** ** Text *)

Definition text := list ascii.

(** The text of a string literal. *)
Definition T (s : string) : text := list_ascii_of_string s.

(** [A-Z] to [a-z]. *)
Definition lower (a : ascii) : ascii :=
  let n := nat_of_ascii a in
  if (65 <=? n)%nat && (n <=? 90)%nat then ascii_of_nat (n + 32) else a.

(** Equality of code units up to ASCII case: what the [i] flag does for
    the ASCII letters that occur in the patterns of the source. *)
Definition eqb_ci (a b : ascii) : bool := Ascii.eqb (lower a) (lower b).

Definition in_range (lo hi : nat) (a : ascii) : bool :=
  (lo <=? nat_of_ascii a)%nat && (nat_of_ascii a <=? hi)%nat.

(** [\s] and the characters removed by [String.prototype.trim], below 256. *)
Definition is_ws (a : ascii) : bool :=
  let n := nat_of_ascii a in
  (in_range 9 13 a) || (n =? 32)%nat || (n =? 160)%nat.

(** [\w] *)
Definition is_word (a : ascii) : bool :=
  in_range 48 57 a || in_range 65 90 a || in_range 97 122 a
  || Ascii.eqb a "_"%char.

Definition any_char (_ : ascii) : bool := true.
Definition is_c (c : ascii) (a : ascii) : bool := Ascii.eqb a c.
Definition is_ci (c : ascii) (a : ascii) : bool := eqb_ci a c.
Definition not_c (c : ascii) (a : ascii) : bool := negb (Ascii.eqb a c).

Definition nl : ascii := ascii_of_nat 10.

Fixpoint trimStart (s : text) : text :=
  match s with
  | a :: t => if is_ws a then trimStart t else s
  | [] => []
  end.

Definition trimEnd (s : text) : text := rev (trimStart (rev s)).

(** [String.prototype.trim] *)
Definition trim (s : text) : text := trimEnd (trimStart s).

Fixpoint starts_with (p s : text) : bool :=
  match p, s with
  | [], _ => true
  | a :: p', b :: s' => Ascii.eqb a b && starts_with p' s'
  | _ :: _, [] => false
  end.

(** [String.prototype.includes] *)
Fixpoint includes (s p : text) : bool :=
  starts_with p s ||
  match s with
  | [] => false
  | _ :: t => includes t p
  end.

(** [s.split("\n")] for a one-character separator. *)
Fixpoint split_on (sep : ascii) (s : text) : list text :=
  match s with
  | [] => [[]]
  | a :: t =>
      if Ascii.eqb a sep then [] :: split_on sep t
      else match split_on sep t with
           | l :: ls => (a :: l) :: ls
           | [] => [[a]]
           end
  end.

(** A text without the character [<]: no markup begins in it. *)
Definition plain (s : text) : bool := forallb (not_c "<") s.

(** The inside of a tag: neither [<] nor [>]. *)
Definition attrs (s : text) : bool :=
  forallb (fun a => not_c "<" a && not_c ">" a) s.

(** [p] is a prefix of [s] up to the comparison [f] of a pattern
    character with a character of [s]. *)
Fixpoint prefix_by (f : ascii -> ascii -> bool) (p s : text) : bool :=
  match p, s with
  | [], _ => true
  | a :: p', x :: s' => f a x && prefix_by f p' s'
  | _ :: _, [] => false
  end.

(** An occurrence of [p], up to [f], begins at one of the first [n]
    positions of [s]. *)
Fixpoint occurs_within (f : ascii -> ascii -> bool) (p : text) (n : nat) (s : text)
    : bool :=
  match n with
  | O => false
  | S n' =>
      prefix_by f p s ||
      match s with
      | [] => false
      | _ :: t => occurs_within f p n' t
      end
  end.

(** ** Regular expressions *)

Module Regex.

(** The capture groups closed so far, the latest first. *)
Definition caps := list (nat * text).

(** The patterns of the source: [Chr p] is one character of the class
    [p], [Star greedy p] is [p*] or [p*?], [Group n r] is the capture
    group number [n], [Ahead r] is [(?=r)], and [Eos] is [$] without the
    [m] flag. *)
Inductive regex : Type :=
| Eps
| Chr (p : ascii -> bool)
| Seq (r1 r2 : regex)
| Alt (r1 r2 : regex)
| Star (greedy : bool) (p : ascii -> bool)
| Group (n : nat) (r : regex)
| Ahead (r : regex)
| Eos.

(** Repetition of a character class, the only repetition the source
    uses.  Greedy: take a character first, come back to the continuation
    on failure; lazy: the continuation first. *)
Fixpoint star {R : Type} (greedy : bool) (p : ascii -> bool)
    (s : text) (k : text -> option R) : option R :=
  match s with
  | [] => k []
  | a :: t =>
      if greedy then
        if p a then
          match star greedy p t k with
          | Some x => Some x
          | None => k s
          end
        else k s
      else
        match k s with
        | Some x => Some x
        | None => if p a then star greedy p t k else None
        end
  end.

Fixpoint rmatch (r : regex) {R : Type} (s : text) (c : caps)
    (k : text -> caps -> option R) {struct r} : option R :=
  match r with
  | Eps => k s c
  | Chr p =>
      match s with
      | a :: t => if p a then k t c else None
      | [] => None
      end
  | Seq r1 r2 => rmatch r1 s c (fun s' c' => rmatch r2 s' c' k)
  | Alt r1 r2 =>
      match rmatch r1 s c k with
      | Some x => Some x
      | None => rmatch r2 s c k
      end
  | Star g p => star g p s (fun s' => k s' c)
  | Group n r1 =>
      rmatch r1 s c
        (fun s' c' => k s' ((n, firstn (length s - length s') s) :: c'))
  | Ahead r1 =>
      match rmatch r1 s c (fun _ c' => Some c') with
      | Some c' => k s c'
      | None => None
      end
  | Eos =>
      match s with
      | [] => k s c
      | _ :: _ => None
      end
  end.

(** One successful match: the matched text, the text after it, and the
    capture groups. *)
Record rmatched := RMatched {
  m_text : text;
  m_rest : text;
  m_caps : caps
}.

Definition match_here (r : regex) (s : text) : option rmatched :=
  rmatch r s []
    (fun s' c => Some (RMatched (firstn (length s - length s') s) s' c)).

Fixpoint cap (n : nat) (c : caps) : text :=
  match c with
  | [] => []
  | (m, t) :: c' => if (m =? n)%nat then t else cap n c'
  end.

(** [s.match(r)] without the [g] flag, and one [r.exec(s)]: the leftmost
    position at which the pattern matches.  The result also carries the
    text before the match. *)
Fixpoint search (r : regex) (s : text) : option (text * rmatched) :=
  match match_here r s with
  | Some m => Some ([], m)
  | None =>
      match s with
      | [] => None
      | a :: t =>
          match search r t with
          | Some (pre, m) => Some (a :: pre, m)
          | None => None
          end
      end
  end.

(** The loop [while ((m = r.exec(s)) !== null)] for a pattern with the
    [g] flag: all matches from left to right, each search resuming where
    the previous match ended.  [skip] counts the characters of the last
    match still to be passed over.  No pattern of the source matches the
    empty text, on which the loop of the source would not end. *)
Fixpoint exec_from (r : regex) (skip : nat) (s : text) : list rmatched :=
  match skip with
  | S n =>
      match s with
      | _ :: t => exec_from r n t
      | [] => []
      end
  | O =>
      match match_here r s with
      | Some m =>
          m :: match s with
               | _ :: t => exec_from r (length (m_text m) - 1) t
               | [] => []
               end
      | None =>
          match s with
          | _ :: t => exec_from r 0 t
          | [] => []
          end
      end
  end.

Definition exec_all (r : regex) (s : text) : list rmatched := exec_from r 0 s.

(** [s.replace(r, rep)] for a pattern with the [g] flag and a replacement
    text without [$] patterns. *)
Fixpoint replace_from (r : regex) (rep : text) (skip : nat) (s : text) : text :=
  match skip with
  | S n =>
      match s with
      | _ :: t => replace_from r rep n t
      | [] => []
      end
  | O =>
      match match_here r s with
      | Some m =>
          rep ++ match s with
                 | a :: t =>
                     match length (m_text m) with
                     | O => a :: replace_from r rep 0 t
                     | S n => replace_from r rep n t
                     end
                 | [] => []
                 end
      | None =>
          match s with
          | a :: t => a :: replace_from r rep 0 t
          | [] => []
          end
      end
  end.

Definition replace_all (r : regex) (rep : text) (s : text) : text :=
  replace_from r rep 0 s.

(** [s.replace(r, rep)] without the [g] flag: the first match only. *)
Definition replace_first (r : regex) (rep : text) (s : text) : text :=
  match search r s with
  | Some (pre, m) => pre ++ rep ++ m_rest m
  | None => s
  end.

(** [s.replace(/^.../, rep)]: a pattern that begins with [^] (no [m]
    flag) can match at the first position only. *)
Definition replace_at_start (r : regex) (rep : text) (s : text) : text :=
  match match_here r s with
  | Some m => rep ++ m_rest m
  | None => s
  end.

(** Pattern builders. *)
Fixpoint lit (s : text) : regex :=
  match s with
  | [] => Eps
  | [a] => Chr (is_c a)
  | a :: t => Seq (Chr (is_c a)) (lit t)
  end.

Fixpoint lit_ci (s : text) : regex :=
  match s with
  | [] => Eps
  | [a] => Chr (is_ci a)
  | a :: t => Seq (Chr (is_ci a)) (lit_ci t)
  end.

Definition plus (p : ascii -> bool) : regex := Seq (Chr p) (Star true p).

Fixpoint seqs (rs : list regex) : regex :=
  match rs with
  | [] => Eps
  | [r] => r
  | r :: rs' => Seq r (seqs rs')
  end.

Fixpoint alts (rs : list regex) : regex :=
  match rs with
  | [] => Eps
  | [r] => r
  | r :: rs' => Alt r (alts rs')
  end.

(** [r] matches the part of [s] before [rest], without a capture, and
    goes on with whatever follows it in the pattern. *)
Definition consumes (r : regex) (s rest : text) : Prop :=
  forall (R : Type) (k : text -> caps -> option R) (c : caps) (x : R),
    k rest c = Some x -> rmatch r s c k = Some x.

(** Patterns that begin with the character [<]. *)
Definition starts_lt (r : regex) : Prop :=
  match_here r [] = None /\
  forall x t, not_c "<" x = true -> match_here r (x :: t) = None.

(** [r] matches the part of [s] before [rest] and turns the captures
    [c] into [f c]. *)
Definition matches (r : regex) (s rest : text) (f : caps -> caps) : Prop :=
  forall (R : Type) (k : text -> caps -> option R) (c : caps) (x : R),
    k rest (f c) = Some x -> rmatch r s c k = Some x.

(** [r] matches at the head of [s] in no way. *)
Definition rejects (r : regex) (s : text) : Prop :=
  forall (R : Type) (k : text -> caps -> option R) (c : caps),
    rmatch r s c k = None.

(** [P] holds of [b ++ s] at every position of [b]. *)
Fixpoint nowhere (P : text -> Prop) (b s : text) : Prop :=
  match b with
  | [] => True
  | x :: b' => P (x :: b' ++ s) /\ nowhere P b' s
  end.

End Regex.

(** ** tools/utils.js *)

Module Utils.
Import Regex.

(** *** Patterns of [htmlToText] *)

(** [/<script[\s\S]*?<\/script>/gi] *)
Definition scriptRegex : regex :=
  seqs [lit_ci (T "<script"); Star false any_char; lit_ci (T "</script>")].

(** [/<style[\s\S]*?<\/style>/gi] *)
Definition styleRegex : regex :=
  seqs [lit_ci (T "<style"); Star false any_char; lit_ci (T "</style>")].

(** [/<\/(p|div|section|article|li|h[1-6]|br|pre)>/gi] *)
Definition blockCloseRegex : regex :=
  seqs [lit (T "</");
        Group 1 (alts [lit_ci (T "p"); lit_ci (T "div"); lit_ci (T "section");
                       lit_ci (T "article"); lit_ci (T "li");
                       Seq (Chr (is_ci "h")) (Chr (in_range 49 54));
                       lit_ci (T "br"); lit_ci (T "pre")]);
        lit (T ">")].

(** [/<(br|hr)\s*\/>/gi] *)
Definition breakRegex : regex :=
  seqs [lit (T "<"); Group 1 (Alt (lit_ci (T "br")) (lit_ci (T "hr")));
        Star true is_ws; lit (T "/>")].

(** [/<[^>]+>/g] *)
Definition tagRegex : regex :=
  seqs [lit (T "<"); plus (not_c ">"); lit (T ">")].

(** [/\n{3,}/g] *)
Definition newlinesRegex : regex :=
  seqs [Chr (is_c nl); Chr (is_c nl); Chr (is_c nl); Star true (is_c nl)].

Definition removeScripts (html : text) : text := replace_all scriptRegex [] html.
Definition removeStyles (html : text) : text := replace_all styleRegex [] html.

Definition decodeEntities (stripped : text) : text :=
  replace_all (lit (T "&#39;")) (T "'")
   (replace_all (lit (T "&quot;")) [ascii_of_nat 34]
     (replace_all (lit (T "&gt;")) (T ">")
       (replace_all (lit (T "&lt;")) (T "<")
         (replace_all (lit (T "&amp;")) (T "&")
           (replace_all (lit (T "&nbsp;")) (T " ") stripped))))).

(** The steps of [htmlToText] that follow the removal of the script and
    style blocks. *)
Definition textOfMarkup (withoutStyles : text) : text :=
  let withBreaks :=
    replace_all breakRegex [nl] (replace_all blockCloseRegex [nl] withoutStyles) in
  let stripped := replace_all tagRegex [] withBreaks in
  let decoded := decodeEntities stripped in
  trim (replace_all newlinesRegex [nl; nl] decoded).

Definition htmlToText (html : text) : text :=
  let withoutScripts := removeScripts html in
  let withoutStyles := removeStyles withoutScripts in
  textOfMarkup withoutStyles.

(** A page whose style block holds the opener of a script block. *)
Definition styleAroundScript : text :=
  T "<style>body{color:red}<script>x</style>shown<script>y</script>".

(** *** [extractCodeBlocks] *)

(** [/<pre[^>]*><code[^>]*>[\s\S]*?<\/code><\/pre>/gi] *)
Definition preCodeRegex : regex :=
  seqs [lit_ci (T "<pre"); Star true (not_c ">"); lit (T ">");
        lit_ci (T "<code"); Star true (not_c ">"); lit (T ">");
        Star false any_char; lit_ci (T "</code></pre>")].

(** [/<code[^>]*>[\s\S]*?<\/code>/gi] *)
Definition codeRegex : regex :=
  seqs [lit_ci (T "<code"); Star true (not_c ">"); lit (T ">");
        Star false any_char; lit_ci (T "</code>")].

(** [/^<[^>]+>/] without the anchor, applied at the first position. *)
Definition firstTagRegex : regex := tagRegex.

(** [/<[^>]+>$/] *)
Definition lastTagRegex : regex :=
  seqs [lit (T "<"); plus (not_c ">"); lit (T ">"); Eos].

Definition innerOf (s : text) : text :=
  replace_first lastTagRegex [] (replace_at_start firstTagRegex [] s).

(** [code.split("\n").filter((line) => line.trim().length > 0)] *)
Definition nonBlankLines (code : text) : list text :=
  List.filter (fun line => (0 <? length (trim line))%nat) (split_on nl code).

(** The closure [pushMatchText]: the array [blocks] is threaded through. *)
Definition pushMatchText (blocks : list text) (s : text) : list text :=
  let inner := innerOf s in
  let code := htmlToText inner in
  let lines := nonBlankLines code in
  if (length lines =? 1)%nat && includes code (T "import") then blocks
  else if (2 <? length lines)%nat then blocks ++ [code]
  else blocks.

Definition extractCodeBlocks (html : text) : list text :=
  let blocks := [] in
  let blocks :=
    fold_left pushMatchText (List.map m_text (exec_all preCodeRegex html)) blocks in
  let blocks :=
    fold_left pushMatchText (List.map m_text (exec_all codeRegex html)) blocks in
  blocks.

(** A [<pre><code>] block with attributes [A] and [B] and content
    [body], and its [<code>] element. *)
Definition codeElement (B body : text) : text :=
  T "<code" ++ B ++ T ">" ++ body ++ T "</code>".

Definition preBlock (A B body : text) : text :=
  T "<pre" ++ A ++ T ">" ++ codeElement B body ++ T "</pre>".

(** A block of three lines, and a page in which an unclosed [<code>]
    precedes a [<pre><code>] block. *)
Definition threeLines : text := T "a" ++ [nl] ++ T "b" ++ [nl] ++ T "c".

Definition unclosedCode : text :=
  T "<code>x " ++ preBlock [] [] threeLines.

(** The plain text [pushMatchText] computes for a match, and the test
    of the length filter. *)
Definition codeOf (s : text) : text := htmlToText (innerOf s).

Definition longEnough (code : text) : bool :=
  (3 <=? length (nonBlankLines code))%nat.

(** *** [extractAPIInfo] *)

Record prop_entry := PropEntry {
  p_prop : text;
  p_type : text;
  p_default : option text;   (* present for inputs only *)
  p_description : text
}.

Record component_record := ComponentRecord {
  c_name : text;
  c_selector : text;
  c_inputs : list prop_entry;
  c_outputs : list prop_entry
}.

Record example_record := ExampleRecord {
  e_title : text;
  e_code : text;
  e_language : text
}.

Record api_info := ApiInfo {
  brainAPI : list component_record;
  helmAPI : list component_record;
  examples : list example_record
}.

(** [<h[1-6][^>]*>] *)
Definition hOpen : regex :=
  seqs [lit (T "<"); Chr (is_ci "h"); Chr (in_range 49 54);
        Star true (not_c ">"); lit (T ">")].

(** [<\/h[1-6]>] *)
Definition hClose : regex :=
  seqs [lit (T "</"); Chr (is_ci "h"); Chr (in_range 49 54); lit (T ">")].

(** A heading element with exactly the given title, as the section
    patterns begin: [<h[1-6][^>]*>title<\/h[1-6]>] with the [i] flag. *)
Definition headingRegex (title : text) : regex :=
  seqs [hOpen; lit_ci title; hClose].

(** [/<h[1-6][^>]*>Brain API<\/h[1-6]>([\s\S]*?)(?=<h[1-6][^>]*>(?:Helm API|On this page|$)|$)/i] *)
Definition brainAPIRegex : regex :=
  seqs [headingRegex (T "Brain API");
        Group 1 (Star false any_char);
        Ahead (Alt (Seq hOpen (alts [lit_ci (T "Helm API");
                                     lit_ci (T "On this page"); Eos]))
                   Eos)].

(** [/<h[1-6][^>]*>Helm API<\/h[1-6]>([\s\S]*?)(?=<h[1-6][^>]*>(?:On this page|$)|$)/i] *)
Definition helmAPIRegex : regex :=
  seqs [headingRegex (T "Helm API");
        Group 1 (Star false any_char);
        Ahead (Alt (Seq hOpen (Alt (lit_ci (T "On this page")) Eos)) Eos)].

(** [(Brn|Hlm)\w+] under the [i] flag *)
Definition componentName : regex :=
  Seq (Alt (lit_ci (T "Brn")) (lit_ci (T "Hlm"))) (plus is_word).

(** [/<h[1-6][^>]*>((Brn|Hlm)\w+)<\/h[1-6]>([\s\S]*?)(?=<h[1-6][^>]*>(?:Brn|Hlm)\w+<\/h[1-6]>|$)/gi] *)
Definition componentRegex : regex :=
  seqs [hOpen;
        Group 1 (Seq (Group 2 (Alt (lit_ci (T "Brn")) (lit_ci (T "Hlm"))))
                     (plus is_word));
        hClose;
        Group 3 (Star false any_char);
        Ahead (Alt (seqs [hOpen; componentName; hClose]) Eos)].

(** [/Selector:\s*([^\n<]+)/i] *)
Definition selectorRegex : regex :=
  seqs [lit_ci (T "Selector:"); Star true is_ws;
        Group 1 (plus (fun a => negb (Ascii.eqb a nl) && negb (Ascii.eqb a "<")))].

Inductive table_type := Inputs | Outputs.

Definition tableName (t : table_type) : text :=
  match t with Inputs => T "Inputs" | Outputs => T "Outputs" end.

(** [new RegExp(`<h[1-6][^>]*>${tableType}<\\/h[1-6]>([\\s\\S]*?)(?=<h[1-6]|$)`, "i")] *)
Definition tableSectionRegex (t : table_type) : regex :=
  seqs [headingRegex (tableName t);
        Group 1 (Star false any_char);
        Ahead (Alt (seqs [lit (T "<"); Chr (is_ci "h"); Chr (in_range 49 54)]) Eos)].

(** [/<tr[^>]*>([\s\S]*?)<\/tr>/gi] *)
Definition rowRegex : regex :=
  seqs [lit_ci (T "<tr"); Star true (not_c ">"); lit (T ">");
        Group 1 (Star false any_char); lit_ci (T "</tr>")].

(** [/<t[dh][^>]*>([\s\S]*?)<\/t[dh]>/gi] *)
Definition cellRegex : regex :=
  seqs [lit (T "<"); Chr (is_ci "t"); Chr (fun a => is_ci "d" a || is_ci "h" a);
        Star true (not_c ">"); lit (T ">");
        Group 1 (Star false any_char);
        lit (T "</"); Chr (is_ci "t"); Chr (fun a => is_ci "d" a || is_ci "h" a);
        lit (T ">")].

(** The capture [m[n]] of every match of the loop over [r.exec(s)]. *)
Definition captures (r : regex) (n : nat) (s : text) : list text :=
  List.map (fun m => cap n (m_caps m)) (exec_all r s).

(** The inner loop over [cellRegex]: the trimmed plain text of each cell. *)
Definition cellsOf (rowContent : text) : list text :=
  List.map (fun c => trim (htmlToText c)) (captures cellRegex 1 rowContent).

(** [cells[i] || ""] *)
Definition cellOrEmpty (cells : list text) (i : nat) : text :=
  match nth_error cells i with
  | Some c => c
  | None => []
  end.

(** One turn of the loop over the rows; the state is the array [props]
    and the flag [isHeaderRow]. *)
Definition rowStep (t : table_type) (st : list prop_entry * bool)
    (rowContent : text) : list prop_entry * bool :=
  let '(props, isHeaderRow) := st in
  if isHeaderRow then (props, false)
  else
    let cells := cellsOf rowContent in
    if (3 <=? length cells)%nat then
      match t with
      | Inputs =>
          (props ++ [PropEntry (cellOrEmpty cells 0) (cellOrEmpty cells 1)
                               (Some (cellOrEmpty cells 2)) (cellOrEmpty cells 3)],
           false)
      | Outputs =>
          (props ++ [PropEntry (cellOrEmpty cells 0) (cellOrEmpty cells 1)
                               None (cellOrEmpty cells 2)],
           false)
      end
    else (props, false).

(** What a row that is not the header adds to [props]. *)
Definition rowProps (t : table_type) (rowContent : text) : list prop_entry :=
  let cells := cellsOf rowContent in
  if (3 <=? length cells)%nat then
    match t with
    | Inputs =>
        [PropEntry (cellOrEmpty cells 0) (cellOrEmpty cells 1)
                   (Some (cellOrEmpty cells 2)) (cellOrEmpty cells 3)]
    | Outputs =>
        [PropEntry (cellOrEmpty cells 0) (cellOrEmpty cells 1)
                   None (cellOrEmpty cells 2)]
    end
  else [].

Definition extractPropsFromTable (html : text) (t : table_type) : list prop_entry :=
  match search (tableSectionRegex t) html with
  | None => []
  | Some (_, tableSectionMatch) =>
      let tableSection := cap 1 (m_caps tableSectionMatch) in
      fst (fold_left (rowStep t) (captures rowRegex 1 tableSection) ([], true))
  end.

(** The body of the loop of [extractAPIComponents] for one match. *)
Definition componentOf (m : rmatched) : component_record :=
  let name := cap 1 (m_caps m) in
  let content := cap 3 (m_caps m) in
  let selector :=
    match search selectorRegex content with
    | Some (_, selectorMatch) => trim (cap 1 (m_caps selectorMatch))
    | None => []
    end in
  ComponentRecord name selector
    (extractPropsFromTable content Inputs)
    (extractPropsFromTable content Outputs).

Definition extractAPIComponents (html : text) : list component_record :=
  List.map componentOf (exec_all componentRegex html).

Definition detectLanguage (code : text) : text :=
  if includes code (T "import") && includes code (T "Component") then T "typescript"
  else if includes code (T "import") && includes code (T "from") then T "javascript"
  else if includes code (T "<") && includes code (T ">") && includes code (T "hlm")
       then T "html"
  else if includes code (T "npm") || includes code (T "npx") || includes code (T "ng ")
       then T "bash"
  else T "typescript".

(** [codeBlocks.slice(0, 10).map((code, index) => ...)] *)
Definition examplesOf (codeBlocks : list text) : list example_record :=
  imap (fun index code =>
          ExampleRecord (T "Example " ++ T (pretty (index + 1)%nat)) code
                        (detectLanguage code))
       (firstn 10 codeBlocks).

(** The values [extractAPIInfo] can be called with: the declared type is
    a string, the language does not enforce it. *)
Inductive js_value :=
| VString (s : text)
| VUndefined
| VNull
| VNumber (z : Z)
| VBoolean (b : bool).

Inductive js_error := TypeError (message : text).

(** The [try] block of [extractAPIInfo], run on the object [apiInfo]:
    the object as the block leaves it, and the exception if one was
    thrown.  On a value that is not a string the first statement,
    [html.match(...)], throws a [TypeError]; on a string no statement of
    the block throws. *)
Definition extractAPIInfo_try (html : js_value) (apiInfo : api_info)
    : api_info * option js_error :=
  match html with
  | VString s =>
      let brainAPIMatch := search brainAPIRegex s in
      let helmAPIMatch := search helmAPIRegex s in
      let apiInfo :=
        match brainAPIMatch with
        | Some (_, m) =>
            let brainSection := cap 1 (m_caps m) in
            ApiInfo (extractAPIComponents brainSection)
                    (helmAPI apiInfo) (examples apiInfo)
        | None => apiInfo
        end in
      let apiInfo :=
        match helmAPIMatch with
        | Some (_, m) =>
            let helmSection := cap 1 (m_caps m) in
            ApiInfo (brainAPI apiInfo)
                    (extractAPIComponents helmSection) (examples apiInfo)
        | None => apiInfo
        end in
      let codeBlocks := extractCodeBlocks s in
      (ApiInfo (brainAPI apiInfo) (helmAPI apiInfo) (examplesOf codeBlocks), None)
  | VUndefined | VNull =>
      (apiInfo, Some (TypeError (T "Cannot read properties of undefined or null")))
  | VNumber _ | VBoolean _ =>
      (apiInfo, Some (TypeError (T "html.match is not a function")))
  end.

Definition emptyApiInfo : api_info := ApiInfo [] [] [].

(** [extractAPIInfo]: the [catch] clause logs the exception and the
    function returns [apiInfo] as it is then.  The second component is
    the exception handed to [console.error], if any. *)
Definition extractAPIInfo_log (html : js_value) : api_info * option js_error :=
  extractAPIInfo_try html emptyApiInfo.

Definition extractAPIInfo_js (html : js_value) : api_info :=
  fst (extractAPIInfo_log html).

Definition extractAPIInfo (html : text) : api_info :=
  extractAPIInfo_js (VString html).

(** *** Pages built from parts *)

(** A table cell, a data row of four cells, a table row, and a table of
    a header row and one data row. *)
Definition cell (c : text) : text := T "<td>" ++ c ++ T "</td>".

(** What follows the capture in [cellRegex]: [<\/t[dh]>]. *)
Definition cellClose : regex :=
  seqs [lit (T "</"); Chr (is_ci "t"); Chr (fun a => is_ci "d" a || is_ci "h" a);
        lit (T ">")].

Definition dataRow (c1 c2 c3 c4 : text) : text :=
  cell c1 ++ cell c2 ++ cell c3 ++ cell c4.

Definition tableRow (r : text) : text := T "<tr>" ++ r ++ T "</tr>".

Definition inputsTable (hdr c1 c2 c3 c4 : text) : text :=
  T "<table>" ++ tableRow hdr ++ tableRow (dataRow c1 c2 c3 c4) ++ T "</table>".

(** A heading of level [d] without attributes. *)
Definition heading (d : ascii) (title : text) : text :=
  T "<h" ++ d :: T ">" ++ title ++ T "</h" ++ d :: T ">".

(** The "Inputs" section of a component. *)
Definition inputsSection (hdr c1 c2 c3 c4 : text) : text :=
  heading "4" (T "Inputs") ++ inputsTable hdr c1 c2 c3 c4.

(** The first alternative of the lookahead of [tableSectionRegex]:
    [<h[1-6]]. *)
Definition tableAhead : regex :=
  seqs [lit (T "<"); Chr (is_ci "h"); Chr (in_range 49 54)].

(** A component: its heading [<h3>Brn...</h3>] and its "Inputs"
    section. *)
Definition componentSection (a : ascii) (w hdr c1 c2 c3 c4 : text) : text :=
  heading "3" (T "Brn" ++ a :: w) ++ inputsSection hdr c1 c2 c3 c4.

(** The first alternative of the lookahead of [componentRegex]. *)
Definition componentAhead : regex := seqs [hOpen; componentName; hClose].

(** A page whose "Brain API" section holds one component. *)
Definition brainPage (pre : text) (a : ascii) (w hdr c1 c2 c3 c4 : text) : text :=
  pre ++ heading "2" (T "Brain API") ++ componentSection a w hdr c1 c2 c3 c4.

(** The first alternative of the lookahead of [brainAPIRegex]. *)
Definition brainAhead : regex :=
  Seq hOpen (alts [lit_ci (T "Helm API"); lit_ci (T "On this page"); Eos]).

(** A page as the site serves it, with one component in its "Brain API"
    section. *)
Definition demoPage : text :=
  T "<h1>Avatar</h1><h2 id='brain'>Brain API</h2><h3>BrnAvatar</h3><p>Selector: brn-avatar</p><h4>Inputs</h4><table><tr><th>Prop</th><th>Type</th><th>Default</th><th>Description</th></tr><tr><td><code>size</code></td><td>string</td><td>md</td><td>The &amp; size</td></tr></table>".

End Utils.

(** ** JSON documents, paths and the file system *)

(** The value [JSON.parse] returns.  [JTime ms] stands for the string
    [new Date(ms).toISOString()]; a [JStr] is a string that is not such a
    timestamp.  Numbers are integers. *)
Inductive json :=
| JNull
| JBool (b : bool)
| JNum (z : Z)
| JStr (s : string)
| JTime (ms : Z)
| JArr (l : list json)
| JObj (o : list (string * json)).

Definition jobject := list (string * json).

(** [o[k]]; [None] is [undefined]. *)
Fixpoint obj_get (k : string) (o : jobject) : option json :=
  match o with
  | [] => None
  | (k', v) :: o' => if String.eqb k' k then Some v else obj_get k o'
  end.

(** [o[k] = v]: an existing key keeps its place. *)
Fixpoint obj_set (k : string) (v : json) (o : jobject) : jobject :=
  match o with
  | [] => [(k, v)]
  | (k', v') :: o' =>
      if String.eqb k' k then (k', v) :: o' else (k', v') :: obj_set k v o'
  end.

Definition truthy (v : json) : bool :=
  match v with
  | JNull => false
  | JBool b => b
  | JNum z => negb (z =? 0)%Z
  | JStr s => negb (String.eqb s "")
  | JTime _ | JArr _ | JObj _ => true
  end.

(** [v[k]] for a parsed document [v] and a property name [k] that is not
    an index or [length]. *)
Definition js_get (v : json) (k : string) : option json :=
  match v with
  | JObj o => obj_get k o
  | _ => None
  end.

(** Length of [JSON.stringify(v)]. *)
Definition escapedLength (a : ascii) : nat :=
  let n := nat_of_ascii a in
  if (n =? 34)%nat || (n =? 92)%nat then 2
  else if (n <? 32)%nat then
    if (n =? 8)%nat || (n =? 9)%nat || (n =? 10)%nat || (n =? 12)%nat || (n =? 13)%nat
    then 2 else 6
  else 1.

Definition quotedLength (s : string) : nat :=
  2 + list_sum (List.map escapedLength (list_ascii_of_string s)).

Definition decimalLength (z : Z) : nat :=
  String.length (pretty z).

Definition isoLength (ms : Z) : nat :=
  if ((-62167219200000 <=? ms) && (ms <=? 253402300799999))%Z then 24 else 27.

Fixpoint stringifyLength (v : json) : nat :=
  match v with
  | JNull => 4
  | JBool b => if b then 4 else 5
  | JNum z => decimalLength z
  | JStr s => quotedLength s
  | JTime ms => 2 + isoLength ms
  | JArr l =>
      2 + list_sum (List.map stringifyLength l) + (length l - 1)
  | JObj o =>
      2 + list_sum (List.map (fun kv => quotedLength (fst kv) + 1 + stringifyLength (snd kv)) o)
        + (length o - 1)
  end.

(** A path is the list of its segments below the root. *)
Definition path := list string.

Fixpoint split_slash_aux (cur : string) (s : string) : list string :=
  match s with
  | EmptyString => [cur]
  | String a t =>
      if Ascii.eqb a "/" then cur :: split_slash_aux EmptyString t
      else split_slash_aux (cur +:+ String a EmptyString) t
  end.

Definition split_slash (s : string) : list string := split_slash_aux EmptyString s.

Definition norm_step (stack : path) (seg : string) : path :=
  if String.eqb seg "" || String.eqb seg "." then stack
  else if String.eqb seg ".." then removelast stack
  else stack ++ [seg].

(** [path.join(base, ...parts)] for an absolute, normalised [base]. *)
Definition path_join (base : path) (parts : list string) : path :=
  fold_left norm_step (concat (List.map split_slash parts)) base.

(** A name without a separator: a single path segment. *)
Fixpoint has_slash (s : string) : bool :=
  match s with
  | EmptyString => false
  | String a t => Ascii.eqb a "/" || has_slash t
  end.

(** What a file holds: a JSON document, or text that [JSON.parse]
    rejects. *)
Inductive file :=
| FJson (j : json)
| FCorrupt.

Record filesystem := FileSystem {
  files : gmap path file;
  dirs : gset path
}.

Inductive js_exn :=
| ENOENT (p : path)
| ENOTDIR (p : path)
| SyntaxError
| TypeErr (message : string)
| FetchFailed (message : string).

(** [fs.mkdir(p, { recursive: true })] *)
Definition proper_prefixes (p : path) : list path :=
  List.map (fun n => firstn n p) (seq 1 (length p)).

Definition mkdir_p (p : path) (fs : filesystem) : js_exn + filesystem :=
  match List.find (fun q => bool_decide (is_Some (files fs !! q))) (proper_prefixes p) with
  | Some q => inl (ENOTDIR q)
  | None => inr (FileSystem (files fs) (dirs fs ∪ list_to_set (proper_prefixes p)))
  end.

Definition dir_exists (p : path) (fs : filesystem) : bool :=
  match p with
  | [] => true
  | _ => bool_decide (p ∈ dirs fs)
  end.

(** [fs.writeFile(p, JSON.stringify(j), "utf-8")] *)
Definition writeFile (p : path) (j : json) (fs : filesystem) : js_exn + filesystem :=
  if dir_exists (removelast p) fs && negb (bool_decide (p ∈ dirs fs))
  then inr (FileSystem (<[p := FJson j]> (files fs)) (dirs fs))
  else inl (ENOENT p).

(** [JSON.parse(await fs.readFile(p, "utf-8"))] *)
Definition readJson (p : path) (fs : filesystem) : js_exn + json :=
  match files fs !! p with
  | Some (FJson j) => inr j
  | Some FCorrupt => inl SyntaxError
  | None => inl (ENOENT p)
  end.

(** ** tools/cache.js *)

Module Cache.

(** The fields of a [CacheManager]; [None] and [JNull] are [null]. *)
Record manager := Manager {
  cacheDir : path;
  currentVersion : option string;
  cacheMetadata : json
}.

(** The manager together with the disk it works on. *)
Record world := World {
  mgr : manager;
  disk : filesystem
}.

(** The environment variable [SPARTAN_CACHE_TTL_HOURS]: [None] when it is
    unset or empty, [Some h] when it holds the integer [h]. *)
Definition ttlHoursOf (env : option Z) : Z :=
  match env with
  | Some h => h
  | None => 24
  end.

(** An async method: it ends in a value or in a thrown exception, and
    leaves a world behind in both cases. *)
Inductive outcome (A : Type) :=
| Returned (a : A) (w : world)
| Thrown (e : js_exn) (w : world).
Arguments Returned {A} a w.
Arguments Thrown {A} e w.

Definition op (A : Type) := world -> outcome A.

Definition ret {A} (a : A) : op A := fun w => Returned a w.
Definition throw {A} (e : js_exn) : op A := fun w => Thrown e w.
Definition bind {A B} (m : op A) (f : A -> op B) : op B :=
  fun w => match m w with
           | Returned a w' => f a w'
           | Thrown e w' => Thrown e w'
           end.
Definition try_catch {A} (m : op A) (h : js_exn -> op A) : op A :=
  fun w => match m w with
           | Returned a w' => Returned a w'
           | Thrown e w' => h e w'
           end.

Notation "x <- m ;; f" := (bind m (fun x => f))
  (at level 20, m at level 99, f at level 200, only parsing).
Notation "m ;;; f" := (bind m (fun _ => f))
  (at level 100, f at level 200, right associativity, only parsing).

Definition getMgr : op manager := fun w => Returned (mgr w) w.
Definition setMgr (m : manager) : op unit := fun w => Returned tt (World m (disk w)).

(** Lift a file-system action that changes the disk. *)
Definition onDisk (f : filesystem -> js_exn + filesystem) : op unit :=
  fun w => match f (disk w) with
           | inr fs => Returned tt (World (mgr w) fs)
           | inl e => Thrown e w
           end.

Definition fromDisk {A} (f : filesystem -> js_exn + A) : op A :=
  fun w => match f (disk w) with
           | inr a => Returned a w
           | inl e => Thrown e w
           end.

(** [path.join(this.cacheDir, this.currentVersion, ...rest)]; a
    [TypeError] when [currentVersion] is still [null]. *)
Definition versionPath (rest : list string) : op path :=
  m <- getMgr ;;
  match currentVersion m with
  | Some v => ret (path_join (cacheDir m) (v :: rest))
  | None => throw (TypeErr "The path argument must be of type string. Received null")
  end.

Definition componentFile (componentName : string) : op path :=
  versionPath ["components"; componentName +:+ ".json"].

Definition docsFile (topic : string) : op path :=
  versionPath ["docs"; topic +:+ ".json"].

Definition metadataPath : op path := versionPath ["metadata.json"].

Definition ensureCacheDir : op unit :=
  componentsDir <- versionPath ["components"] ;;
  docsDir <- versionPath ["docs"] ;;
  onDisk (mkdir_p componentsDir) ;;;
  onDisk (mkdir_p docsDir).

Definition saveMetadata : op unit :=
  p <- metadataPath ;;
  m <- getMgr ;;
  onDisk (writeFile p (cacheMetadata m)).

Definition setMetadata (j : json) : op unit :=
  m <- getMgr ;;
  setMgr (Manager (cacheDir m) (currentVersion m) j).

Definition versionJson (v : option string) : json :=
  match v with Some s => JStr s | None => JNull end.

(** [loadMetadata]; [now1] and [now2] are the two readings of the clock
    in the [catch] clause. *)
Definition loadMetadata (now1 now2 : Z) : op unit :=
  p <- metadataPath ;;
  try_catch
    (data <- fromDisk (readJson p) ;; setMetadata data)
    (fun _ =>
       m <- getMgr ;;
       setMetadata (JObj [("version", versionJson (currentVersion m));
                          ("createdAt", JTime now1);
                          ("lastUpdated", JTime now2);
                          ("components", JObj []);
                          ("docs", JObj [])]) ;;;
       saveMetadata).

(** [initialize(spartanVersion)]; [spartanVersion || "latest"]. *)
Definition initialize (spartanVersion : option string) (now1 now2 : Z) : op string :=
  let v := match spartanVersion with
           | Some s => if String.eqb s "" then "latest" else s
           | None => "latest"
           end in
  m <- getMgr ;;
  setMgr (Manager (cacheDir m) (Some v) (cacheMetadata m)) ;;;
  ensureCacheDir ;;;
  loadMetadata now1 now2 ;;;
  ret v.

(** [new Date(x).getTime()] for a property [x] of a parsed document;
    [None] is [NaN]. *)
Definition getTime (x : option json) : option Z :=
  match x with
  | Some (JTime ms) => Some ms
  | Some (JNum z) => Some z
  | Some JNull => Some 0%Z
  | Some (JBool b) => Some (if b then 1 else 0)%Z
  | Some (JStr _) | Some (JArr _) | Some (JObj _) | None => None
  end.

(** The object both [getComponent] and [getDocs] return; [None] in
    [r_data] and [r_cachedAt] is [null] or [undefined]. *)
Record cache_result := CacheResult {
  r_data : option json;
  r_cached : bool;
  r_stale : bool;
  r_cachedAt : option json;
  r_version : option string
}.

Definition missResult (v : option string) : cache_result :=
  CacheResult None false false None v.

(** [cacheAge > ttlHours * 60 * 60 * 1000]; a comparison with [NaN] is
    false. *)
Definition isStale (now : Z) (cachedAt : option json) (ttlEnv : option Z) : bool :=
  match getTime cachedAt with
  | Some t => (ttlHoursOf ttlEnv * 60 * 60 * 1000 <? now - t)%Z
  | None => false
  end.

(** [componentData[dataType] || componentData] *)
Definition project (componentData : json) (dataType : string) : json :=
  match js_get componentData dataType with
  | Some v => if truthy v then v else componentData
  | None => componentData
  end.

(** [getComponent(componentName, dataType = "full")]; [now] is the
    reading of [Date.now()]. *)
Definition getComponent (componentName : string) (dataType : option string)
    (ttlEnv : option Z) (now : Z) : op cache_result :=
  let dataType := match dataType with Some d => d | None => "full" end in
  componentFile <- componentFile componentName ;;
  m <- getMgr ;;
  try_catch
    (componentData <- fromDisk (readJson componentFile) ;;
     match componentData with
     | JNull => throw (TypeErr "Cannot read properties of null (reading 'cachedAt')")
     | _ =>
         let cachedAt := js_get componentData "cachedAt" in
         ret (CacheResult
                (Some (project componentData dataType))
                true
                (isStale now cachedAt ttlEnv)
                cachedAt
                (currentVersion m))
     end)
    (fun _ => ret (missResult (currentVersion m))).

(** [this.cacheMetadata[section][key] = entry], then
    [this.cacheMetadata.lastUpdated = ...]; a [TypeError] unless the
    metadata is an object whose [section] is an object. *)
Definition updateMetadata (section key : string) (entry : json) (now : Z) : op unit :=
  m <- getMgr ;;
  match cacheMetadata m with
  | JObj md =>
      match obj_get section md with
      | Some (JObj sec) =>
          setMetadata
            (JObj (obj_set "lastUpdated" (JTime now)
                     (obj_set section (JObj (obj_set key entry sec)) md)))
      | _ => throw (TypeErr "Cannot set properties of undefined")
      end
  | _ => throw (TypeErr "Cannot read properties of null")
  end.

(** [setComponent(componentName, data)]; [now1] is the clock reading
    stored as [cachedAt], [now2] the one stored as [lastUpdated]. *)
Definition setComponent (componentName : string) (data : jobject) (now1 now2 : Z)
    : op unit :=
  componentFile <- componentFile componentName ;;
  m <- getMgr ;;
  let cacheEntry :=
    obj_set "cachedAt" (JTime now1)
      (obj_set "version" (versionJson (currentVersion m))
         (obj_set "componentName" (JStr componentName) data)) in
  onDisk (writeFile componentFile (JObj cacheEntry)) ;;;
  updateMetadata "components" componentName
    (JObj [("cachedAt", JTime now1);
           ("size", JNum (Z.of_nat (stringifyLength (JObj cacheEntry))))]) now2 ;;;
  saveMetadata.

(** [getDocs(topic)] *)
Definition getDocs (topic : string) (ttlEnv : option Z) (now : Z) : op cache_result :=
  docsFile <- docsFile topic ;;
  m <- getMgr ;;
  try_catch
    (docsData <- fromDisk (readJson docsFile) ;;
     match docsData with
     | JNull => throw (TypeErr "Cannot read properties of null (reading 'cachedAt')")
     | _ =>
         let cachedAt := js_get docsData "cachedAt" in
         ret (CacheResult (js_get docsData "content") true
                          (isStale now cachedAt ttlEnv) cachedAt (currentVersion m))
     end)
    (fun _ => ret (missResult (currentVersion m))).

(** [setDocs(topic, content)] *)
Definition setDocs (topic : string) (content : string) (now1 now2 : Z) : op unit :=
  docsFile <- docsFile topic ;;
  m <- getMgr ;;
  let cacheEntry :=
    [("topic", JStr topic); ("content", JStr content);
     ("version", versionJson (currentVersion m)); ("cachedAt", JTime now1)] in
  onDisk (writeFile docsFile (JObj cacheEntry)) ;;;
  updateMetadata "docs" topic
    (JObj [("cachedAt", JTime now1);
           ("size", JNum (Z.of_nat (stringifyLength (JObj cacheEntry))))]) now2 ;;;
  saveMetadata.

(** [new CacheManager()] *)
Definition newManager (projectRoot : path) : manager :=
  Manager (path_join projectRoot ["cache"]) None JNull.

(** The entry [setComponent] writes for [data]. *)
Definition componentEntry (componentName : string) (v : option string)
    (data : jobject) (now : Z) : jobject :=
  obj_set "cachedAt" (JTime now)
    (obj_set "version" (versionJson v)
       (obj_set "componentName" (JStr componentName) data)).

(** A manager on an empty disk, initialised for the version "latest",
    and a payload without the field [full]. *)
Definition emptyWorld : world :=
  World (newManager ["srv"; "app"]) (FileSystem ∅ ∅).

Definition run {A} (o : outcome A) : world :=
  match o with
  | Returned _ w => w
  | Thrown _ w => w
  end.

Definition freshWorld : world := run (initialize None 100 101 emptyWorld).

Definition htmlOnly : jobject := [("html", JStr "<h1>X</h1>")].

Definition buttonWorld : world :=
  run (setComponent "button" htmlOnly 200 201 freshWorld).

(** The same entry file written again under another spelling of its
    key, and an entry written to the path of [metadata.json]. *)
Definition aliasedWorld : world :=
  run (setComponent "./button" htmlOnly 300 301 buttonWorld).

Definition fullPage : jobject := [("full", JStr "page")].

Definition overwrittenWorld : world :=
  run (setComponent "../metadata" fullPage 200 201 freshWorld).

(** *** The metadata and the entry files in lockstep *)

(** [section[key]] of the metadata [md] is [e]. *)
Definition indexed (md : jobject) (section key : string) (e : json) : Prop :=
  exists sec, obj_get section md = Some (JObj sec) /\ obj_get key sec = Some e.

(** The file [cache/{v}/{section}/{key}.json] holds an entry written at
    the time the index entry [e] records. *)
Definition entryOnDisk (w : world) (v section key : string) (e : json) : Prop :=
  exists entry t,
    files (disk w) !! path_join (cacheDir (mgr w)) [v; section; key +:+ ".json"]
      = Some (FJson (JObj entry)) /\
    obj_get "cachedAt" entry = Some (JTime t) /\
    js_get e "cachedAt" = Some (JTime t).

(** The invariant of the version metadata: the metadata in memory is the
    one persisted in [metadata.json] of the active version, and every key
    of its [components] and [docs] indexes is a plain name whose entry
    file exists with the recorded [cachedAt]. *)
Definition lockstep (w : world) : Prop :=
  exists v md,
    currentVersion (mgr w) = Some v /\
    cacheMetadata (mgr w) = JObj md /\
    files (disk w) !! path_join (cacheDir (mgr w)) [v; "metadata.json"]
      = Some (FJson (JObj md)) /\
    forall section key e,
      section = "components" \/ section = "docs" ->
      indexed md section key e ->
      has_slash key = false /\ entryOnDisk w v section key e.

(** What a completed write leaves behind. *)
Definition afterWrite (section key : string) (entry : jobject) (now1 now2 : Z)
    (w w' : world) : Prop :=
  exists v md sec,
    currentVersion (mgr w) = Some v /\
    cacheMetadata (mgr w) = JObj md /\
    obj_get section md = Some (JObj sec) /\
    let d := path_join (cacheDir (mgr w)) [v] in
    let md' :=
      obj_set "lastUpdated" (JTime now2)
        (obj_set section
           (JObj (obj_set key
                    (JObj [("cachedAt", JTime now1);
                           ("size", JNum (Z.of_nat (stringifyLength (JObj entry))))])
                    sec)) md) in
    mgr w' = Manager (cacheDir (mgr w)) (Some v) (JObj md') /\
    files (disk w') =
      <[path_join d ["metadata.json"] := FJson (JObj md')]>
        (<[path_join d [section; key +:+ ".json"] := FJson (JObj entry)]>
           (files (disk w))) /\
    dirs (disk w') = dirs (disk w).

End Cache.

(** ** tools/utils.js: [fetchContent] *)

Module Fetch.

(** What [fetch(url)] does at one moment: it rejects, or it resolves to
    a response. *)
Inductive net_response :=
| NetError (message : string)
| Response (ok : bool) (status : string) (statusText : string) (body : text).

Definition network := string -> net_response.

Record cache_entry := CacheEntry {
  content : text;
  timestampMs : Z
}.

(** The module-level [responseCache], and the GET requests issued so
    far, the latest first. *)
Record fetch_state := FetchState {
  responseCache : gmap string cache_entry;
  requests : list string
}.

(** The environment variable [SPARTAN_CACHE_TTL_MS]: [None] when it is
    unset or empty. *)
Definition ttlMsOf (env : option Z) : Z :=
  match env with
  | Some t => t
  | None => (5 * 60 * 1000)%Z
  end.

Definition cacheKey (url format : string) : string := url +:+ "::" +:+ format.

(** [responseCache.has(cacheKey)] with [now - entry.timestampMs < ttlMs]:
    the content of the entry that is served without a request. *)
Definition freshEntry (st : fetch_state) (cacheKey : string) (now ttlMs : Z)
    : option text :=
  match responseCache st !! cacheKey with
  | Some entry =>
      if (now - timestampMs entry <? ttlMs)%Z then Some (content entry) else None
  | None => None
  end.

(** [fetchContent(url, format, noCache)]; [now] is the reading of
    [Date.now()] and [net] the behaviour of the network during the
    call. *)
Definition fetchContent (net : network) (ttlEnv : option Z) (now : Z)
    (url format : string) (noCache : bool) (st : fetch_state)
    : (js_exn + text) * fetch_state :=
  let ttlMs := ttlMsOf ttlEnv in
  let cacheKey := cacheKey url format in
  match (if noCache then None else freshEntry st cacheKey now ttlMs) with
  | Some c => (inr c, st)
  | None =>
      let st := FetchState (responseCache st) (url :: requests st) in
      match net url with
      | NetError msg => (inl (FetchFailed msg), st)
      | Response ok status statusText html =>
          if negb ok then
            (inl (FetchFailed ("Failed to fetch " +:+ url +:+ ": " +:+ status
                               +:+ " " +:+ statusText)), st)
          else
            let result :=
              if String.eqb format "text" then Utils.htmlToText html else html in
            let st :=
              if noCache then st
              else FetchState (<[cacheKey := CacheEntry result now]> (responseCache st))
                              (requests st) in
            (inr result, st)
      end
  end.

(** The message of the exception a response makes [fetchContent] throw,
    if any. *)
Definition failureOf (url : string) (r : net_response) : option string :=
  match r with
  | NetError msg => Some msg
  | Response ok status statusText _ =>
      if ok then None
      else Some ("Failed to fetch " +:+ url +:+ ": " +:+ status +:+ " " +:+ statusText)
  end.

(** A network that serves one page, and the state of a new process. *)
Definition onePage : network :=
  fun _ => Response true "200" "OK" (T "<p>hi</p>").

Definition noNetwork : network := fun _ => NetError "fetch failed".

Definition newProcess : fetch_state := FetchState ∅ [].

End Fetch.

(** ** tools/cache-warmup.js *)

Module Warmup.
Import Cache Fetch.

Definition SPARTAN_COMPONENTS_BASE : string := "https://www.spartan.ng/components".
Definition SPARTAN_DOCS_BASE : string := "https://www.spartan.ng/documentation".

Definition DOCUMENTATION_TOPICS : list string :=
  ["installation"; "theming"; "dark-mode"; "typography"; "health-checks";
   "update-guide"].

Definition KNOWN_COMPONENTS : list string :=
  ["accordion"; "alert"; "alert-dialog"; "aspect-ratio"; "avatar"; "badge";
   "breadcrumb"; "button"; "calendar"; "card"; "carousel"; "checkbox";
   "collapsible"; "combobox"; "command"; "context-menu"; "data-table";
   "date-picker"; "dialog"; "dropdown-menu"; "form-field"; "hover-card";
   "icon"; "input"; "input-otp"; "label"; "menubar"; "pagination"; "popover";
   "progress"; "radio-group"; "scroll-area"; "select"; "separator"; "sheet";
   "skeleton"; "slider"; "sonner"; "spinner"; "switch"; "table"; "tabs";
   "textarea"; "toggle"; "toggle-group"; "tooltip"].

Definition S (t : text) : string := string_of_list_ascii t.

(** The JSON form of the extracted records. *)
Definition propToJson (p : Utils.prop_entry) : json :=
  match Utils.p_default p with
  | Some d =>
      JObj [("prop", JStr (S (Utils.p_prop p))); ("type", JStr (S (Utils.p_type p)));
            ("default", JStr (S d));
            ("description", JStr (S (Utils.p_description p)))]
  | None =>
      JObj [("prop", JStr (S (Utils.p_prop p))); ("type", JStr (S (Utils.p_type p)));
            ("description", JStr (S (Utils.p_description p)))]
  end.

Definition componentToJson (c : Utils.component_record) : json :=
  JObj [("name", JStr (S (Utils.c_name c)));
        ("selector", JStr (S (Utils.c_selector c)));
        ("inputs", JArr (List.map propToJson (Utils.c_inputs c)));
        ("outputs", JArr (List.map propToJson (Utils.c_outputs c)))].

Definition exampleToJson (e : Utils.example_record) : json :=
  JObj [("title", JStr (S (Utils.e_title e))); ("code", JStr (S (Utils.e_code e)));
        ("language", JStr (S (Utils.e_language e)))].

Definition apiToJson (a : Utils.api_info) : json :=
  JObj [("brainAPI", JArr (List.map componentToJson (Utils.brainAPI a)));
        ("helmAPI", JArr (List.map componentToJson (Utils.helmAPI a)));
        ("examples", JArr (List.map exampleToJson (Utils.examples a)))].

(** [err.message] *)
Definition messageOf (e : js_exn) : string :=
  match e with
  | ENOENT _ => "ENOENT: no such file or directory"
  | ENOTDIR _ => "ENOTDIR: not a directory"
  | SyntaxError => "Unexpected token in JSON"
  | TypeErr m => m
  | FetchFailed m => m
  end.

(** The environment of a run: the readings of the clock ([clock i j] is
    the reading number [j] taken while item number [i] is processed,
    [startTime] and [endTime] the readings at both ends of the run), the
    behaviour of the network at each request, numbered in the order the
    requests are issued, and the TTL variable of the fetch cache. *)
Record environment := Environment {
  startTime : Z;
  endTime : Z;
  clock : nat -> nat -> Z;
  net : nat -> network;
  ttlMsEnv : option Z
}.

(** The state of a run: the cache manager and its disk, the fetch
    cache with the requests issued, the number of items processed, and
    the calls [onProgress] has received, the latest first. *)
Record run_state := RunState {
  cache : Cache.world;
  fetch : fetch_state;
  items : nat;
  progress : list (nat * nat)
}.

Inductive warm_result :=
| WarmOk (item : string)
| WarmFailed (item : string) (error : string).

Definition payloadOf (url : string) (html : text) : jobject :=
  let api := apiToJson (Utils.extractAPIInfo html) in
  let examples := JArr (List.map (fun c => JStr (S c)) (Utils.extractCodeBlocks html)) in
  [("html", JStr (S html)); ("api", api); ("examples", examples);
   ("full", JObj [("html", JStr (S html)); ("api", api); ("examples", examples);
                  ("url", JStr url)])].

(** [warmComponent(componentName, version)] *)
Definition warmComponent (env : environment) (componentName : string)
    (st : run_state) : warm_result * run_state :=
  let i := items st in
  let url := SPARTAN_COMPONENTS_BASE +:+ "/" +:+ componentName in
  let '(fetched, fetch') :=
    fetchContent (net env (length (requests (fetch st)))) (ttlMsEnv env)
                 (clock env i 0) url "html" true (fetch st) in
  match fetched with
  | inl e =>
      (WarmFailed componentName (messageOf e),
       RunState (cache st) fetch' (Datatypes.S i) (progress st))
  | inr html =>
      match setComponent componentName (payloadOf url html)
              (clock env i 1) (clock env i 2) (cache st) with
      | Returned _ w =>
          (WarmOk componentName, RunState w fetch' (Datatypes.S i) (progress st))
      | Thrown e w =>
          (WarmFailed componentName (messageOf e),
           RunState w fetch' (Datatypes.S i) (progress st))
      end
  end.

(** [warmDocs(topic)] *)
Definition warmDocs (env : environment) (topic : string)
    (st : run_state) : warm_result * run_state :=
  let i := items st in
  let url := SPARTAN_DOCS_BASE +:+ "/" +:+ topic in
  let '(fetched, fetch') :=
    fetchContent (net env (length (requests (fetch st)))) (ttlMsEnv env)
                 (clock env i 0) url "html" true (fetch st) in
  match fetched with
  | inl e =>
      (WarmFailed topic (messageOf e),
       RunState (cache st) fetch' (Datatypes.S i) (progress st))
  | inr html =>
      match setDocs topic (S html) (clock env i 1) (clock env i 2) (cache st) with
      | Returned _ w =>
          (WarmOk topic, RunState w fetch' (Datatypes.S i) (progress st))
      | Thrown e w =>
          (WarmFailed topic (messageOf e),
           RunState w fetch' (Datatypes.S i) (progress st))
      end
  end.

Record tally := Tally {
  total : nat;
  success : nat;
  failed : nat;
  errors : list (string * string)
}.

Record warm_results := WarmResults {
  version : option string;
  components : tally;
  docs : tally;
  duration : Z
}.

Definition count (t : tally) (r : warm_result) : tally :=
  match r with
  | WarmOk _ => Tally (total t) (Datatypes.S (success t)) (failed t) (errors t)
  | WarmFailed item error =>
      Tally (total t) (success t) (Datatypes.S (failed t)) (errors t ++ [(item, error)])
  end.

(** The loop over [components], from index [i] on. *)
Fixpoint componentsLoop (env : environment) (onProgress : bool) (n : nat)
    (i : nat) (components : list string) (t : tally) (st : run_state)
    : tally * run_state :=
  match components with
  | [] => (t, st)
  | component :: rest =>
      let '(result, st) := warmComponent env component st in
      let t := count t result in
      let st :=
        if onProgress
        then RunState (cache st) (fetch st) (items st) ((i + 1, n)%nat :: progress st)
        else st in
      componentsLoop env onProgress n (Datatypes.S i) rest t st
  end.

(** The loop over [DOCUMENTATION_TOPICS]. *)
Fixpoint docsLoop (env : environment) (topics : list string) (t : tally)
    (st : run_state) : tally * run_state :=
  match topics with
  | [] => (t, st)
  | topic :: rest =>
      let '(result, st) := warmDocs env topic st in
      docsLoop env rest (count t result) st
  end.

(** [warmCache(options)]; an option that is [None] takes its default;
    [onProgress] says whether a callback was given, its calls are
    recorded in the state. *)
Definition warmCache (env : environment) (components : option (list string))
    (includeDocs : option bool) (onProgress : bool) (st : run_state)
    : warm_results * run_state :=
  let components := match components with Some l => l | None => KNOWN_COMPONENTS end in
  let includeDocs := match includeDocs with Some b => b | None => true end in
  let version := currentVersion (mgr (cache st)) in
  let '(ct, st) :=
    componentsLoop env onProgress (length components) 0 components
                   (Tally (length components) 0 0 []) st in
  let '(dt, st) :=
    if includeDocs
    then docsLoop env DOCUMENTATION_TOPICS
                  (Tally (length DOCUMENTATION_TOPICS) 0 0 []) st
    else (Tally 0 0 0 [], st) in
  let duration := (endTime env - startTime env)%Z in
  (WarmResults version ct dt duration, st).

(** A network on which the page of "a" is served and that of "b" is
    not, and a run that starts on the freshly initialised cache. *)
Definition abNetwork : network :=
  fun url =>
    if String.eqb url (SPARTAN_COMPONENTS_BASE +:+ "/a")
    then Response true "200" "OK" (T "<h1>A</h1>")
    else NetError "fetch failed".

Definition abEnvironment : environment :=
  Environment 1000 2000 (fun i j => (1000 + Z.of_nat (10 * i + j))%Z)
              (fun _ => abNetwork) None.

Definition startState : run_state :=
  RunState Cache.freshWorld newProcess 0 [].

End Warmup.

(** * Properties *)

(** ** Strings and paths *)

Module PathFacts.

Lemma append_cons (x : ascii) (a b : string) :
  String x a +:+ b = String x (a +:+ b).
Proof. reflexivity. Qed.

Lemma append_assoc (a b c : string) : (a +:+ b) +:+ c = a +:+ (b +:+ c).
Proof.
  induction a as [|x a IH]; [reflexivity|].
  rewrite !append_cons. f_equal. exact IH.
Qed.

Lemma length_append (a b : string) :
  String.length (a +:+ b) = (String.length a + String.length b)%nat.
Proof.
  induction a as [|x a IH]; [reflexivity|].
  rewrite append_cons. simpl. f_equal. exact IH.
Qed.

Lemma append_inv_r (a b c : string) : a +:+ c = b +:+ c -> a = b.
Proof.
  revert b. induction a as [|x a IH]; intros [|y b] H.
  - reflexivity.
  - apply (f_equal String.length) in H. rewrite !length_append in H.
    simpl in H. lia.
  - apply (f_equal String.length) in H. rewrite !length_append in H.
    simpl in H. lia.
  - rewrite !append_cons in H. injection H as -> H. f_equal. now apply IH.
Qed.

Lemma split_slash_aux_plain (s cur : string) :
  has_slash s = false -> split_slash_aux cur s = [cur +:+ s].
Proof.
  revert cur. induction s as [|a s IH]; intros cur H; simpl in *.
  - f_equal. induction cur as [|x cur IHc]; [reflexivity|].
    rewrite append_cons. now rewrite <- IHc.
  - apply orb_false_iff in H as [Ha Hs]. rewrite Ha, (IH _ Hs).
    rewrite append_assoc. reflexivity.
Qed.

Lemma split_slash_plain (s : string) : has_slash s = false -> split_slash s = [s].
Proof. intros H. unfold split_slash. now rewrite split_slash_aux_plain. Qed.

Lemma has_slash_append (a b : string) :
  has_slash (a +:+ b) = has_slash a || has_slash b.
Proof.
  induction a as [|x a IH]; [reflexivity|].
  rewrite append_cons. simpl. rewrite <- orb_assoc. f_equal. exact IH.
Qed.

(** A file name [k.json] is a proper segment: [path.join] appends it. *)
Lemma norm_step_json (stack : path) (k : string) :
  norm_step stack (k +:+ ".json") = stack ++ [k +:+ ".json"].
Proof.
  unfold norm_step.
  assert (Hlen : (5 <= String.length (k +:+ ".json"))%nat)
    by (rewrite length_append; simpl; lia).
  destruct (String.eqb_spec (k +:+ ".json") "") as [E|_];
    [rewrite E in Hlen; simpl in Hlen; lia|].
  destruct (String.eqb_spec (k +:+ ".json") ".") as [E|_];
    [rewrite E in Hlen; simpl in Hlen; lia|].
  destruct (String.eqb_spec (k +:+ ".json") "..") as [E|_];
    [rewrite E in Hlen; simpl in Hlen; lia|].
  reflexivity.
Qed.

Lemma path_join_app (base : path) (xs ys : list string) :
  path_join base (xs ++ ys) = path_join (path_join base xs) ys.
Proof. unfold path_join. now rewrite map_app, concat_app, fold_left_app. Qed.

(** The three kinds of file of a version directory [d]. *)
Lemma entry_path (d : path) (sub k : string) :
  has_slash k = false ->
  has_slash sub = false -> sub <> "" -> sub <> "." -> sub <> ".." ->
  path_join d [sub; k +:+ ".json"] = d ++ [sub; k +:+ ".json"].
Proof.
  intros Hk Hs H1 H2 H3. unfold path_join. simpl.
  rewrite (split_slash_plain sub Hs), split_slash_plain
    by (rewrite has_slash_append, Hk; reflexivity).
  simpl. rewrite norm_step_json. unfold norm_step at 1.
  apply String.eqb_neq in H1, H2, H3. rewrite H1, H2, H3. simpl.
  now rewrite <- app_assoc.
Qed.

Lemma component_path (d : path) (k : string) :
  has_slash k = false ->
  path_join d ["components"; k +:+ ".json"] = d ++ ["components"; k +:+ ".json"].
Proof. intros H. apply entry_path; [exact H | reflexivity | discriminate ..]. Qed.

Lemma docs_path (d : path) (k : string) :
  has_slash k = false ->
  path_join d ["docs"; k +:+ ".json"] = d ++ ["docs"; k +:+ ".json"].
Proof. intros H. apply entry_path; [exact H | reflexivity | discriminate ..]. Qed.

Lemma metadata_path (d : path) : path_join d ["metadata.json"] = d ++ ["metadata.json"].
Proof. reflexivity. Qed.

End PathFacts.

(** ** The disk cache *)

Module CacheFacts.
Import Cache PathFacts.

Lemma obj_get_set_eq (k : string) (v : json) (o : jobject) :
  obj_get k (obj_set k v o) = Some v.
Proof.
  induction o as [|[k' v'] o IH]; simpl.
  - now rewrite String.eqb_refl.
  - destruct (String.eqb k' k) eqn:E; simpl; rewrite E; [reflexivity | exact IH].
Qed.

Lemma obj_get_set_ne (k k' : string) (v : json) (o : jobject) :
  k <> k' -> obj_get k' (obj_set k v o) = obj_get k' o.
Proof.
  intros Hne. induction o as [|[k0 v0] o IH]; simpl.
  - apply String.eqb_neq in Hne. now rewrite Hne.
  - destruct (String.eqb k0 k) eqn:E; simpl.
    + apply String.eqb_eq in E. subst k0.
      apply String.eqb_neq in Hne. now rewrite Hne.
    + destruct (String.eqb k0 k'); [reflexivity | exact IH].
Qed.

(** The paths of one version directory are pairwise distinct. *)
Lemma entry_paths_inj (d : path) (s1 s2 k1 k2 : string) :
  d ++ [s1; k1 +:+ ".json"] = d ++ [s2; k2 +:+ ".json"] -> s1 = s2 /\ k1 = k2.
Proof.
  intros H. apply app_inv_head in H. injection H as -> H.
  split; [reflexivity | now apply append_inv_r in H].
Qed.

Lemma entry_path_not_metadata (d : path) (s k : string) :
  d ++ [s; k +:+ ".json"] <> d ++ ["metadata.json"].
Proof. intros H. apply app_inv_head in H. discriminate. Qed.

Lemma version_path (base : path) (v : string) (rest : list string) :
  path_join base (v :: rest) = path_join (path_join base [v]) rest.
Proof. exact (path_join_app base [v] rest). Qed.

Lemma writeFile_inr (p : path) (j : json) (fs fs' : filesystem) :
  writeFile p j fs = inr fs' ->
  fs' = FileSystem (<[p := FJson j]> (files fs)) (dirs fs).
Proof.
  unfold writeFile. destruct (dir_exists _ _ && _); [|discriminate].
  now intros [= <-].
Qed.

Local Opaque stringifyLength path_join.

Ltac run_write :=
  unfold saveMetadata, metadataPath, versionPath, updateMetadata, setMetadata,
    onDisk, getMgr, setMgr, bind, ret, throw;
  cbn [mgr disk currentVersion cacheDir cacheMetadata].

Lemma setComponent_returned (k : string) (data : jobject) (now1 now2 : Z)
    (w w' : world) :
  setComponent k data now1 now2 w = Returned tt w' ->
  afterWrite "components" k
    (obj_set "cachedAt" (JTime now1)
       (obj_set "version" (versionJson (currentVersion (mgr w)))
          (obj_set "componentName" (JStr k) data))) now1 now2 w w'.
Proof.
  destruct w as [[cd cv cm] [fl ds]].
  unfold setComponent, componentFile. run_write.
  destruct cv as [v|]; [|discriminate]. run_write.
  destruct (writeFile _ _ _) as [e|fs1] eqn:Hw1; [discriminate|].
  apply writeFile_inr in Hw1. subst fs1. run_write.
  destruct cm as [| | | | | |md]; try discriminate.
  destruct (obj_get "components" md) as [[| | | | | |sec]|] eqn:Hsec;
    try discriminate.
  run_write.
  destruct (writeFile _ _ _) as [e|fs2] eqn:Hw2; [discriminate|].
  apply writeFile_inr in Hw2. subst fs2.
  intros [= <-].
  exists v, md, sec. cbn. rewrite <- !version_path.
  repeat split; try reflexivity; assumption.
Qed.

Lemma setDocs_returned (topic content : string) (now1 now2 : Z) (w w' : world) :
  setDocs topic content now1 now2 w = Returned tt w' ->
  afterWrite "docs" topic
    [("topic", JStr topic); ("content", JStr content);
     ("version", versionJson (currentVersion (mgr w))); ("cachedAt", JTime now1)]
    now1 now2 w w'.
Proof.
  destruct w as [[cd cv cm] [fl ds]].
  unfold setDocs, docsFile. run_write.
  destruct cv as [v|]; [|discriminate]. run_write.
  destruct (writeFile _ _ _) as [e|fs1] eqn:Hw1; [discriminate|].
  apply writeFile_inr in Hw1. subst fs1. run_write.
  destruct cm as [| | | | | |md]; try discriminate.
  destruct (obj_get "docs" md) as [[| | | | | |sec]|] eqn:Hsec;
    try discriminate.
  run_write.
  destruct (writeFile _ _ _) as [e|fs2] eqn:Hw2; [discriminate|].
  apply writeFile_inr in Hw2. subst fs2.
  intros [= <-].
  exists v, md, sec. cbn. rewrite <- !version_path.
  repeat split; try reflexivity; assumption.
Qed.

Lemma file_path (cd : path) (v section key : string) :
  section = "components" \/ section = "docs" ->
  has_slash key = false ->
  path_join cd [v; section; key +:+ ".json"]
  = path_join cd [v] ++ [section; key +:+ ".json"].
Proof.
  intros [-> | ->] Hk; rewrite version_path;
    [now apply component_path | now apply docs_path].
Qed.

Lemma meta_path (cd : path) (v : string) :
  path_join cd [v; "metadata.json"] = path_join cd [v] ++ ["metadata.json"].
Proof. rewrite version_path. apply metadata_path. Qed.

(** A completed write of a plain key keeps the metadata and the entry
    files in lockstep. *)
Lemma afterWrite_lockstep (section key : string) (entry : jobject)
    (now1 now2 : Z) (w w' : world) :
  section = "components" \/ section = "docs" ->
  has_slash key = false ->
  obj_get "cachedAt" entry = Some (JTime now1) ->
  lockstep w ->
  afterWrite section key entry now1 now2 w w' ->
  lockstep w'.
Proof.
  intros Hsection Hkey Hentry (v0 & md0 & Hv0 & Hm0 & Hfile0 & Hall)
    (v & md & sec & Hv & Hm & Hsec & Hmgr & Hfiles & Hdirs).
  rewrite Hv in Hv0. injection Hv0 as <-.
  rewrite Hm in Hm0. injection Hm0 as <-.
  set (E := JObj [("cachedAt", JTime now1);
                  ("size", JNum (Z.of_nat (stringifyLength (JObj entry))))]) in *.
  set (md' := obj_set "lastUpdated" (JTime now2)
                (obj_set section (JObj (obj_set key E sec)) md)) in *.
  rewrite <- version_path in Hfiles.
  exists v, md'. rewrite Hmgr. cbn [cacheDir currentVersion cacheMetadata].
  split; [reflexivity|]. split; [reflexivity|]. split.
  { rewrite Hfiles. apply lookup_insert_eq. }
  intros section' key' e' Hsection' (sec' & Hsec' & Hget).
  assert (Hlu : section' <> "lastUpdated") by (destruct Hsection'; subst; discriminate).
  unfold md' in Hsec'. rewrite obj_get_set_ne in Hsec' by congruence.
  assert (Hkeep : forall k0 e0,
             has_slash k0 = false ->
             (section', k0) <> (section, key) ->
             entryOnDisk w v section' k0 e0 -> entryOnDisk w' v section' k0 e0).
  { intros k0 e0 Hk0 Hne (en & t & Hf & Hc & He).
    exists en, t. split; [|split; assumption].
    rewrite Hmgr. cbn [cacheDir]. rewrite Hfiles.
    rewrite lookup_insert_ne.
    - rewrite lookup_insert_ne; [exact Hf|].
      rewrite <- version_path, !file_path by assumption.
      intros Heq. apply entry_paths_inj in Heq as [-> ->]. now apply Hne.
    - rewrite meta_path, file_path by assumption.
      intros Heq. symmetry in Heq. now apply entry_path_not_metadata in Heq. }
  destruct (String.eqb_spec section section') as [<-|Hs].
  - rewrite obj_get_set_eq in Hsec'. injection Hsec' as <-.
    destruct (String.eqb_spec key key') as [<-|Hk].
    + rewrite obj_get_set_eq in Hget. injection Hget as <-.
      split; [assumption|].
      exists entry, now1. split; [|split; [assumption|reflexivity]].
      rewrite Hmgr. cbn [cacheDir]. rewrite Hfiles.
      rewrite lookup_insert_ne.
      * rewrite version_path. apply lookup_insert_eq.
      * rewrite meta_path, file_path by assumption.
        intros Heq. symmetry in Heq. now apply entry_path_not_metadata in Heq.
    + rewrite obj_get_set_ne in Hget by assumption.
      destruct (Hall section key' e' Hsection') as [Hp Hd];
        [exists sec; split; assumption|].
      split; [assumption|]. apply Hkeep; [assumption| congruence | assumption].
  - rewrite obj_get_set_ne in Hsec' by assumption.
    destruct (Hall section' key' e' Hsection') as [Hp Hd];
      [exists sec'; split; assumption|].
    split; [assumption|]. apply Hkeep; [assumption| congruence | assumption].
Qed.

Lemma componentEntry_cachedAt (k : string) (v : option string) (data : jobject)
    (now : Z) :
  obj_get "cachedAt" (componentEntry k v data now) = Some (JTime now).
Proof. apply obj_get_set_eq. Qed.

Lemma componentEntry_field (k : string) (v : option string) (data : jobject)
    (now : Z) (f : string) :
  f <> "cachedAt" -> f <> "version" -> f <> "componentName" ->
  obj_get f (componentEntry k v data now) = obj_get f data.
Proof.
  intros H1 H2 H3. unfold componentEntry.
  rewrite !obj_get_set_ne by congruence. reflexivity.
Qed.

(** A read of an entry file that holds an object. *)
Lemma getComponent_hit (k : string) (dataType : option string) (ttlEnv : option Z)
    (now : Z) (w : world) (v : string) (entry : jobject) :
  currentVersion (mgr w) = Some v ->
  files (disk w) !! path_join (cacheDir (mgr w)) [v; "components"; k +:+ ".json"]
    = Some (FJson (JObj entry)) ->
  getComponent k dataType ttlEnv now w =
  Returned (CacheResult
              (Some (project (JObj entry)
                       (match dataType with Some d => d | None => "full" end)))
              true (isStale now (obj_get "cachedAt" entry) ttlEnv)
              (obj_get "cachedAt" entry) (Some v)) w.
Proof.
  intros Hv Hf. destruct w as [[cd cv cm] [fl ds]]. cbn in Hv, Hf. subst cv.
  unfold getComponent, componentFile, versionPath, try_catch, fromDisk, readJson,
    getMgr, bind, ret.
  cbn [mgr disk currentVersion cacheDir files]. rewrite Hf. reflexivity.
Qed.

(** A completed [setComponent] for a plain key leaves its entry in the
    entry file of that key. *)
Lemma setComponent_file (k : string) (data : jobject) (now1 now2 : Z)
    (w w' : world) :
  has_slash k = false ->
  setComponent k data now1 now2 w = Returned tt w' ->
  exists v,
    currentVersion (mgr w) = Some v /\
    currentVersion (mgr w') = Some v /\
    cacheDir (mgr w') = cacheDir (mgr w) /\
    files (disk w') !! path_join (cacheDir (mgr w)) [v; "components"; k +:+ ".json"]
      = Some (FJson (JObj (componentEntry k (Some v) data now1))).
Proof.
  intros Hk Hset. apply setComponent_returned in Hset.
  destruct Hset as (v & md & sec & Hv & Hm & Hsec & Hmgr & Hfiles & Hdirs).
  exists v. rewrite Hmgr. cbn [cacheDir currentVersion].
  repeat split; try assumption; try reflexivity.
  rewrite Hfiles, lookup_insert_ne.
  - rewrite version_path, Hv. apply lookup_insert_eq.
  - rewrite <- version_path, meta_path, file_path by auto.
    intros Heq. symmetry in Heq. now apply entry_path_not_metadata in Heq.
Qed.


(** C3, as amended. After a completed [setComponent(key, payload)] for a
    plain key, [getComponent(key)] without a field, read no later than
    [ttlHours] hours after the write, returns [cached = true],
    [stale = false], and as data the field [full] of the payload when the
    payload has one that is truthy, and the whole stored entry (the
    payload with [componentName], [version] and [cachedAt]) otherwise. *)
Theorem C3_roundtrip (w w' : world) (k : string) (payload : jobject)
    (now1 now2 now : Z) (ttlEnv : option Z) :
  has_slash k = false ->
  setComponent k payload now1 now2 w = Returned tt w' ->
  (now - now1 <= ttlHoursOf ttlEnv * 3600000)%Z ->
  exists r,
    getComponent k None ttlEnv now w' = Returned r w' /\
    r_cached r = true /\
    r_stale r = false /\
    r_data r =
      Some (match obj_get "full" payload with
            | Some full =>
                if truthy full then full
                else JObj (componentEntry k (currentVersion (mgr w)) payload now1)
            | None => JObj (componentEntry k (currentVersion (mgr w)) payload now1)
            end).
Proof.
  intros Hk Hset Hage.
  apply setComponent_returned in Hset.
  destruct Hset as (v & md & sec & Hv & Hm & Hsec & Hmgr & Hfiles & Hdirs).
  fold (componentEntry k (currentVersion (mgr w)) payload now1) in Hfiles.
  set (entry := componentEntry k (currentVersion (mgr w)) payload now1) in *.
  assert (Hf : files (disk w') !!
                 path_join (cacheDir (mgr w')) [v; "components"; k +:+ ".json"]
               = Some (FJson (JObj entry))).
  { rewrite Hmgr. cbn [cacheDir]. rewrite Hfiles, lookup_insert_ne.
    - rewrite version_path. apply lookup_insert_eq.
    - rewrite <- version_path, meta_path, file_path by auto.
      intros Heq. symmetry in Heq. now apply entry_path_not_metadata in Heq. }
  assert (Hv' : currentVersion (mgr w') = Some v) by now rewrite Hmgr.
  eexists. split; [apply (getComponent_hit _ _ _ _ _ _ _ Hv' Hf)|].
  cbn [r_cached r_data r_stale]. split; [reflexivity|]. split.
  - unfold entry. rewrite componentEntry_cachedAt. unfold isStale, getTime.
    apply Z.ltb_ge. lia.
  - unfold project, js_get. unfold entry at 1.
    rewrite componentEntry_field by discriminate. reflexivity.
Qed.

Lemma freshWorld_lockstep : lockstep freshWorld.
Proof.
  exists "latest",
    [("version", JStr "latest"); ("createdAt", JTime 100);
     ("lastUpdated", JTime 101); ("components", JObj []); ("docs", JObj [])].
  split; [reflexivity|]. split; [reflexivity|]. split; [vm_compute; reflexivity|].
  intros section key e [-> | ->] (sec & Hsec & Hget);
    cbn in Hsec; injection Hsec as <-; discriminate.
Qed.

(** C9, as amended. The lockstep invariant (the metadata in memory
    equals the persisted [metadata.json] of the active version, and every
    key of its [components] and [docs] indexes is a plain name that has
    an entry file with the same [cachedAt]) is kept by every completed
    [setComponent] and [setDocs] whose key is a plain name, without a
    path separator. *)
Theorem C9_lockstep_kept (w w' : world) (key : string) (now1 now2 : Z) :
  has_slash key = false ->
  lockstep w ->
  (forall data, setComponent key data now1 now2 w = Returned tt w' -> lockstep w') /\
  (forall content, setDocs key content now1 now2 w = Returned tt w' -> lockstep w').
Proof.
  intros Hk Hinv. split.
  - intros data H. apply setComponent_returned in H.
    refine (afterWrite_lockstep _ _ _ _ _ _ _ _ Hk _ Hinv H); [now left|].
    apply obj_get_set_eq.
  - intros content H. apply setDocs_returned in H.
    refine (afterWrite_lockstep _ _ _ _ _ _ _ _ Hk _ Hinv H); [now right|].
    reflexivity.
Qed.

Lemma buttonWorld_written :
  setComponent "button" htmlOnly 200 201 freshWorld = Returned tt buttonWorld.
Proof. vm_compute. reflexivity. Qed.


Lemma C3_witness :
  exists r,
    getComponent "button" None None 200 buttonWorld = Returned r buttonWorld /\
    r_cached r = true /\ r_stale r = false.
Proof.
  destruct (C3_roundtrip freshWorld buttonWorld "button" htmlOnly 200 201 200 None)
    as (r & H1 & H2 & H3 & _).
  - reflexivity.
  - vm_compute. reflexivity.
  - vm_compute. discriminate.
  - exists r. auto.
Defined.

(** The round trip as first stated fails on a payload without the field
    [full]: the data returned is the whole stored entry.  It also fails
    for the key "../metadata", whose entry file is [metadata.json]: the
    data returned is the metadata, not the field [full] that was
    written. *)
Lemma C3_counterexample :
  (exists r,
     setComponent "button" htmlOnly 200 201 freshWorld = Returned tt buttonWorld /\
     getComponent "button" None None 200 buttonWorld = Returned r buttonWorld /\
     obj_get "full" htmlOnly = None /\
     r_data r = Some (JObj (componentEntry "button" (Some "latest") htmlOnly 200)) /\
     r_data r <> obj_get "full" htmlOnly) /\
  (exists r,
     setComponent "../metadata" fullPage 200 201 freshWorld
       = Returned tt overwrittenWorld /\
     getComponent "../metadata" None None 200 overwrittenWorld
       = Returned r overwrittenWorld /\
     obj_get "full" fullPage = Some (JStr "page") /\
     r_data r = Some (cacheMetadata (mgr overwrittenWorld)) /\
     r_data r <> obj_get "full" fullPage).
Proof.
  split.
  - eexists. split; [exact buttonWorld_written|]. split.
    + apply (getComponent_hit "button" None None 200 buttonWorld "latest"
               (componentEntry "button" (Some "latest") htmlOnly 200)).
      * reflexivity.
      * vm_compute. reflexivity.
    + split; [reflexivity|]. split; [reflexivity|]. discriminate.
  - eexists. split; [vm_compute; reflexivity|]. split.
    + vm_compute. reflexivity.
    + split; [reflexivity|]. split; [vm_compute; reflexivity|].
      vm_compute. discriminate.
Qed.

Lemma C9_witness : lockstep buttonWorld.
Proof.
  apply (proj1 (C9_lockstep_kept freshWorld buttonWorld "button" 200 201
                  eq_refl freshWorld_lockstep) htmlOnly).
  vm_compute. reflexivity.
Defined.

Lemma buttonWorld_lockstep : lockstep buttonWorld.
Proof.
  pose proof (setComponent_returned _ _ _ _ _ _ buttonWorld_written) as H.
  refine (afterWrite_lockstep _ _ _ _ _ _ _ _ _ _ freshWorld_lockstep H);
    [now left | reflexivity | apply obj_get_set_eq].
Qed.

(** The invariant as first stated fails for keys that name the same
    entry file: after "button" is written at time 200 and "./button" at
    time 300, the metadata still records 200 for "button", and the entry
    file of "button" carries 300. *)
Lemma C9_counterexample :
  lockstep buttonWorld /\
  setComponent "./button" htmlOnly 300 301 buttonWorld = Returned tt aliasedWorld /\
  (exists md e,
     cacheMetadata (mgr aliasedWorld) = JObj md /\
     files (disk aliasedWorld) !! path_join (cacheDir (mgr aliasedWorld))
                                    ["latest"; "metadata.json"]
       = Some (FJson (JObj md)) /\
     indexed md "components" "button" e /\
     js_get e "cachedAt" = Some (JTime 200) /\
     ~ entryOnDisk aliasedWorld "latest" "components" "button" e) /\
  (exists entry,
     files (disk aliasedWorld) !! path_join (cacheDir (mgr aliasedWorld))
                                    ["latest"; "components"; "button.json"]
       = Some (FJson (JObj entry)) /\
     obj_get "cachedAt" entry = Some (JTime 300)).
Proof.
  split; [exact buttonWorld_lockstep|].
  split; [vm_compute; reflexivity|]. split.
  - eexists _, _. split; [vm_compute; reflexivity|].
    split; [vm_compute; reflexivity|]. split.
    + eexists. split; reflexivity.
    + split; [reflexivity|].
      intros (entry & t & Hf & Hc & He).
      cbn in He. injection He as <-.
      vm_compute in Hf. injection Hf as <-. discriminate Hc.
  - eexists. split; [vm_compute; reflexivity | reflexivity].
Qed.

End CacheFacts.

(** ** The fetch cache *)

Module FetchFacts.
Import Fetch.

(** C5. Two successive calls [fetchContent(url, "html", false)], the
    first of which goes to the network (no fresh entry for the key) and
    gets a successful response, the second made while the entry written
    by the first is younger than the TTL (300000 ms when the variable is
    unset), issue exactly one GET in total: the second call returns the
    content of the first without a request, whatever the network does. *)
Theorem C5_one_request (net1 net2 : network) (ttlEnv : option Z) (now1 now2 : Z)
    (url status statusText : string) (body : text) (st : fetch_state) :
  freshEntry st (cacheKey url "html") now1 (ttlMsOf ttlEnv) = None ->
  net1 url = Response true status statusText body ->
  (now2 - now1 < ttlMsOf ttlEnv)%Z ->
  let '(r1, st1) := fetchContent net1 ttlEnv now1 url "html" false st in
  let '(r2, st2) := fetchContent net2 ttlEnv now2 url "html" false st1 in
  r1 = inr body /\ r2 = inr body /\
  requests st1 = url :: requests st /\
  requests st2 = url :: requests st /\
  ttlMsOf None = 300000%Z.
Proof.
  intros Hmiss Hnet Hage. unfold fetchContent at 1.
  cbn [negb]. rewrite Hmiss, Hnet. cbn [negb String.eqb Ascii.eqb Bool.eqb].
  cbn match. unfold fetchContent. cbn [negb].
  unfold freshEntry at 1. cbn [responseCache requests].
  rewrite lookup_insert_eq. cbn [timestampMs content].
  apply Z.ltb_lt in Hage. rewrite Hage. auto.
Qed.

Lemma C5_witness :
  let '(r1, st1) := fetchContent onePage None 0 "https://www.spartan.ng/components/button"
                      "html" false newProcess in
  let '(r2, st2) := fetchContent noNetwork None 299999
                      "https://www.spartan.ng/components/button" "html" false st1 in
  r2 = inr (T "<p>hi</p>") /\
  requests st2 = ["https://www.spartan.ng/components/button"].
Proof.
  pose proof (C5_one_request onePage noNetwork None 0 299999
                "https://www.spartan.ng/components/button" "200" "OK"
                (T "<p>hi</p>") newProcess eq_refl eq_refl eq_refl) as H.
  destruct (fetchContent onePage None 0 _ "html" false newProcess) as [r1 st1].
  destruct (fetchContent noNetwork None 299999 _ "html" false st1) as [r2 st2].
  destruct H as (_ & H2 & _ & H4 & _). split; assumption.
Defined.

End FetchFacts.

(** ** The cache warmer *)

Module WarmupFacts.
Import Cache Fetch Warmup.

Lemma fetch_bypass_ok (n : network) (ttlEnv : option Z) (now : Z)
    (url status statusText : string) (html : text) (st : fetch_state) :
  n url = Response true status statusText html ->
  fetchContent n ttlEnv now url "html" true st
  = (inr html, FetchState (responseCache st) (url :: requests st)).
Proof. intros H. unfold fetchContent. rewrite H. reflexivity. Qed.

Lemma fetch_bypass_error (n : network) (ttlEnv : option Z) (now : Z)
    (url msg : string) (st : fetch_state) :
  failureOf url (n url) = Some msg ->
  fetchContent n ttlEnv now url "html" true st
  = (inl (FetchFailed msg), FetchState (responseCache st) (url :: requests st)).
Proof.
  intros H. unfold fetchContent, failureOf in *.
  destruct (n url) as [m|ok status statusText body].
  - now injection H as <-.
  - destruct ok; [discriminate|]. now injection H as <-.
Qed.

(** Every turn of the loop counts its item once, as a success or as a
    failure with an entry in the error list, and reports its index to
    the callback when there is one. *)
Lemma componentsLoop_counts (env : environment) (onProgress : bool) (n : nat)
    (comps : list string) :
  forall (i : nat) (t : tally) (st : run_state),
    let '(t', st') := componentsLoop env onProgress n i comps t st in
    total t' = total t /\
    (success t' + failed t' = success t + failed t + length comps)%nat /\
    (length (errors t') + failed t = length (errors t) + failed t')%nat /\
    items st' = (items st + length comps)%nat /\
    progress st' =
      (if onProgress
       then rev (List.map (fun j => (j + 1, n)%nat) (seq i (length comps)))
       else []) ++ progress st.
Proof.
  induction comps as [|c comps IH]; intros i t st.
  - cbn. destruct onProgress; repeat split; lia.
  - cbn [componentsLoop].
    destruct (warmComponent env c st) as [r st1] eqn:Hw.
    assert (Hitems : items st1 = Datatypes.S (items st)).
    { unfold warmComponent in Hw.
      destruct (fetchContent _ _ _ _ _ _ _) as [[e|html] f].
      - injection Hw as <- <-. reflexivity.
      - destruct (setComponent _ _ _ _ _); injection Hw as <- <-; reflexivity. }
    assert (Hprog : progress st1 = progress st).
    { unfold warmComponent in Hw.
      destruct (fetchContent _ _ _ _ _ _ _) as [[e|html] f].
      - injection Hw as <- <-. reflexivity.
      - destruct (setComponent _ _ _ _ _); injection Hw as <- <-; reflexivity. }
    specialize (IH (Datatypes.S i) (count t r)
                  (if onProgress
                   then RunState (cache st1) (fetch st1) (items st1)
                                 ((i + 1, n)%nat :: progress st1)
                   else st1)).
    destruct (componentsLoop env onProgress n (Datatypes.S i) comps _ _) as [t' st'].
    destruct IH as (H1 & H2 & H3 & H4 & H5).
    assert (H4' : items st' = (Datatypes.S (items st) + length comps)%nat)
      by (destruct onProgress; cbn [items] in H4; lia).
    assert (H5' : progress st' =
                  (if onProgress
                   then rev (List.map (fun j => (j + 1, n)%nat)
                               (seq i (length (c :: comps))))
                   else []) ++ progress st).
    { destruct onProgress; cbn [progress] in H5; rewrite H5, Hprog.
      - cbn [seq List.map rev length]. now rewrite <- app_assoc.
      - reflexivity. }
    destruct r as [item|item err];
      cbn [count total success failed errors length] in *.
    + repeat split; try lia. exact H5'.
    + rewrite length_app in H3. cbn [length] in H3.
      repeat split; try lia. exact H5'.
Qed.

Lemma docsLoop_counts (env : environment) (topics : list string) :
  forall (t : tally) (st : run_state),
    let '(t', st') := docsLoop env topics t st in
    total t' = total t /\
    (success t' + failed t' = success t + failed t + length topics)%nat /\
    progress st' = progress st.
Proof.
  induction topics as [|c topics IH]; intros t st.
  - cbn. repeat split; lia.
  - cbn [docsLoop].
    destruct (warmDocs env c st) as [r st1] eqn:Hw.
    assert (Hprog : progress st1 = progress st).
    { unfold warmDocs in Hw.
      destruct (fetchContent _ _ _ _ _ _ _) as [[e|html] f].
      - injection Hw as <- <-. reflexivity.
      - destruct (setDocs _ _ _ _ _); injection Hw as <- <-; reflexivity. }
    specialize (IH (count t r) st1).
    destruct (docsLoop env topics _ _) as [t' st'].
    destruct IH as (H1 & H2 & H3).
    destruct r as [item|item err];
      cbn [count total success failed errors length] in *;
      repeat split; try lia; congruence.
Qed.

Lemma warmComponent_ok (env : environment) (name status statusText : string)
    (html : text) (st : run_state) (w : world) :
  let url := SPARTAN_COMPONENTS_BASE +:+ "/" +:+ name in
  net env (length (requests (fetch st))) url = Response true status statusText html ->
  setComponent name (payloadOf url html) (clock env (items st) 1)
    (clock env (items st) 2) (cache st) = Returned tt w ->
  warmComponent env name st
  = (WarmOk name,
     RunState w (FetchState (responseCache (fetch st)) (url :: requests (fetch st)))
              (Datatypes.S (items st)) (progress st)).
Proof.
  intros url Hnet Hset. unfold warmComponent. fold url.
  rewrite (fetch_bypass_ok _ _ _ _ _ _ _ _ Hnet), Hset. reflexivity.
Qed.

Lemma warmComponent_unreachable (env : environment) (name msg : string)
    (st : run_state) :
  let url := SPARTAN_COMPONENTS_BASE +:+ "/" +:+ name in
  failureOf url (net env (length (requests (fetch st))) url) = Some msg ->
  warmComponent env name st
  = (WarmFailed name msg,
     RunState (cache st)
              (FetchState (responseCache (fetch st)) (url :: requests (fetch st)))
              (Datatypes.S (items st)) (progress st)).
Proof.
  intros url Hnet. unfold warmComponent. fold url.
  rewrite (fetch_bypass_error _ _ _ _ _ _ Hnet). reflexivity.
Qed.



End WarmupFacts.

(** ** The matcher *)

Module RegexFacts.
Import Regex.

Lemma rmatch_lit_by (f : ascii -> ascii -> bool) (mk : text -> regex) :
  (forall a, mk [a] = Chr (f a)) ->
  (forall a b t, mk (a :: b :: t) = Seq (Chr (f a)) (mk (b :: t))) ->
  forall (p : text) (R : Type) (s : text) (c : caps) (k : text -> caps -> option R),
    p <> [] ->
    rmatch (mk p) s c k = if prefix_by f p s then k (drop (length p) s) c else None.
Proof.
  intros H1 H2 p R. induction p as [|a p IH]; intros s c k Hp; [congruence|].
  destruct p as [|b t].
  - rewrite H1. cbn. destruct s as [|x s]; [reflexivity|].
    rewrite andb_true_r. reflexivity.
  - rewrite H2. cbn [rmatch]. destruct s as [|x s]; [reflexivity|].
    cbn [prefix_by length drop]. destruct (f a x); [|reflexivity].
    rewrite IH by discriminate. reflexivity.
Qed.

Lemma rmatch_lit_ci (p : text) {R : Type} (s : text) (c : caps)
    (k : text -> caps -> option R) :
  p <> [] ->
  rmatch (lit_ci p) s c k
  = if prefix_by is_ci p s then k (drop (length p) s) c else None.
Proof. apply (rmatch_lit_by is_ci lit_ci); reflexivity. Qed.

Lemma rmatch_lit (p : text) {R : Type} (s : text) (c : caps)
    (k : text -> caps -> option R) :
  p <> [] ->
  rmatch (lit p) s c k
  = if prefix_by is_c p s then k (drop (length p) s) c else None.
Proof. apply (rmatch_lit_by is_c lit); reflexivity. Qed.

(** The lazy [[\s\S]*?]: the first position at which the rest of the
    pattern matches. *)
Lemma star_lazy_any {R : Type} (body rest : text) (k : text -> option R) (x : R) :
  (forall i, (i < length body)%nat -> k (drop i (body ++ rest)) = None) ->
  k rest = Some x ->
  star false any_char (body ++ rest) k = Some x.
Proof.
  induction body as [|a body IH]; intros Hnone Hk.
  - cbn. destruct rest; cbn; rewrite Hk; reflexivity.
  - cbn [app star]. pose proof (Hnone 0%nat ltac:(cbn; lia)) as H0.
    cbn in H0. rewrite H0. cbn [any_char].
    apply IH; [|exact Hk].
    intros i Hi. apply (Hnone (Datatypes.S i)). cbn. lia.
Qed.

(** The greedy [[^>]*] before a [>]: all the characters up to it. *)
Lemma star_greedy_until {R : Type} (p : ascii -> bool) (body rest : text)
    (k : text -> option R) (x : R) :
  Forall (fun a => p a = true) body ->
  k rest = Some x ->
  match rest with [] => True | a :: _ => p a = false end ->
  star true p (body ++ rest) k = Some x.
Proof.
  intros Hall Hk Hstop. induction Hall as [|a body Ha _ IH].
  - cbn. destruct rest as [|b rest]; cbn; [exact Hk|]. now rewrite Hstop.
  - cbn [app star]. rewrite Ha, IH. reflexivity.
Qed.

(** A scan passes over a prefix in which no match begins. *)
Lemma replace_from_skip (r : regex) (rep pre rest : text) :
  (forall i, (i < length pre)%nat -> match_here r (drop i (pre ++ rest)) = None) ->
  replace_from r rep 0 (pre ++ rest) = pre ++ replace_from r rep 0 rest.
Proof.
  induction pre as [|a pre IH]; intros Hnone; [reflexivity|].
  cbn [app replace_from]. pose proof (Hnone 0%nat ltac:(cbn; lia)) as H0.
  cbn in H0. rewrite H0.
  f_equal. apply IH. intros i Hi. apply (Hnone (Datatypes.S i)). cbn. lia.
Qed.

Lemma exec_from_skip (r : regex) (pre rest : text) :
  (forall i, (i < length pre)%nat -> match_here r (drop i (pre ++ rest)) = None) ->
  exec_from r 0 (pre ++ rest) = exec_from r 0 rest.
Proof.
  induction pre as [|a pre IH]; intros Hnone; [reflexivity|].
  cbn [app exec_from]. pose proof (Hnone 0%nat ltac:(cbn; lia)) as H0.
  cbn in H0. rewrite H0.
  apply IH. intros i Hi. apply (Hnone (Datatypes.S i)). cbn. lia.
Qed.

(** After a match the scan resumes behind the matched text. *)
Lemma replace_from_over (r : regex) (rep m rest : text) :
  replace_from r rep (length m) (m ++ rest) = replace_from r rep 0 rest.
Proof. induction m as [|a m IH]; [reflexivity | exact IH]. Qed.

Lemma exec_from_over (r : regex) (m rest : text) :
  exec_from r (length m) (m ++ rest) = exec_from r 0 rest.
Proof. induction m as [|a m IH]; [reflexivity | exact IH]. Qed.

Lemma replace_from_match (r : regex) (rep m rest : text) (c : caps) :
  m <> [] ->
  match_here r (m ++ rest) = Some (RMatched m rest c) ->
  replace_from r rep 0 (m ++ rest) = rep ++ replace_from r rep 0 rest.
Proof.
  intros Hm H. destruct m as [|a m]; [congruence|].
  cbn [app replace_from]. cbn [app] in H. rewrite H. cbn [m_text length].
  now rewrite replace_from_over.
Qed.

Lemma exec_from_match (r : regex) (m rest : text) (c : caps) :
  m <> [] ->
  match_here r (m ++ rest) = Some (RMatched m rest c) ->
  exec_from r 0 (m ++ rest) = RMatched m rest c :: exec_from r 0 rest.
Proof.
  intros Hm H. destruct m as [|a m]; [congruence|].
  cbn [app exec_from]. cbn [app] in H. rewrite H.
  replace (length (m_text (RMatched (a :: m) rest c)) - 1)%nat with (length m)
    by (cbn; lia).
  now rewrite exec_from_over.
Qed.

(** The matched text is what lies between the start and the rest. *)
Lemma take_matched (m rest : text) :
  take (length (m ++ rest) - length rest) (m ++ rest) = m.
Proof.
  rewrite length_app. replace (length m + length rest - length rest)%nat
    with (length m) by lia.
  now rewrite take_app_length.
Qed.

Lemma prefix_by_app (f : ascii -> ascii -> bool) (p o rest : text) :
  prefix_by f p o = true -> prefix_by f p (o ++ rest) = true.
Proof.
  revert o. induction p as [|a p IH]; intros o H; [reflexivity|].
  destruct o as [|x o]; [discriminate|]. cbn in *.
  apply andb_true_iff in H as [-> H]. now apply IH.
Qed.

Lemma drop_app_same_length (o rest : text) (n : nat) :
  length o = n -> drop n (o ++ rest) = rest.
Proof. intros <-. apply drop_app_length. Qed.

Lemma occurs_within_none (f : ascii -> ascii -> bool) (p : text) (n : nat) (s : text) :
  occurs_within f p n s = false ->
  forall i, (i < n)%nat -> prefix_by f p (drop i s) = false.
Proof.
  revert s. induction n as [|n IH]; intros s H i Hi; [lia|].
  cbn in H. apply orb_false_iff in H as [H0 Ht].
  destruct i as [|i]; [exact H0|].
  destruct s as [|x s]; [destruct p; [discriminate H0 | reflexivity]|].
  cbn. apply IH; [exact Ht | lia].
Qed.

(** Patterns of the shape [open[\s\S]*?close] under the [i] flag. *)
Section Blocks.
Variables opener closer : text.
Hypothesis opener_nonempty : opener <> [].
Hypothesis closer_nonempty : closer <> [].

Let blockRegex : regex := seqs [lit_ci opener; Star false any_char; lit_ci closer].

Lemma block_no_opener (s : text) :
  prefix_by is_ci opener s = false -> match_here blockRegex s = None.
Proof using opener_nonempty.
  intros H. unfold match_here, blockRegex. cbn [seqs rmatch].
  rewrite rmatch_lit_ci by assumption. now rewrite H.
Qed.

Lemma block_matched (o body c post : text) :
  prefix_by is_ci opener o = true -> length o = length opener ->
  prefix_by is_ci closer c = true -> length c = length closer ->
  occurs_within is_ci closer (length body) (body ++ c ++ post) = false ->
  match_here blockRegex (o ++ body ++ c ++ post)
  = Some (RMatched (o ++ body ++ c) post []).
Proof using opener_nonempty closer_nonempty.
  intros Ho Hlo Hc Hlc Hbody. unfold match_here, blockRegex. cbn [seqs rmatch].
  rewrite rmatch_lit_ci by assumption.
  rewrite prefix_by_app by assumption.
  rewrite drop_app_same_length by assumption.
  apply star_lazy_any.
  - intros i Hi. rewrite rmatch_lit_ci by assumption.
    now rewrite (occurs_within_none _ _ _ _ Hbody i Hi).
  - rewrite rmatch_lit_ci by assumption.
    rewrite prefix_by_app by assumption.
    rewrite drop_app_same_length by assumption.
    do 2 f_equal.
    replace (o ++ body ++ c ++ post) with ((o ++ body ++ c) ++ post)
      by (now rewrite <- !app_assoc).
    apply take_matched.
Qed.

(** A block whose opener is the first in the text is cut out, and the
    scan goes on behind it. *)
Lemma block_removed (pre o body c post : text) :
  occurs_within is_ci opener (length pre) (pre ++ o ++ body ++ c ++ post) = false ->
  prefix_by is_ci opener o = true -> length o = length opener ->
  prefix_by is_ci closer c = true -> length c = length closer ->
  occurs_within is_ci closer (length body) (body ++ c ++ post) = false ->
  replace_all blockRegex [] (pre ++ o ++ body ++ c ++ post)
  = pre ++ replace_all blockRegex [] post.
Proof using opener_nonempty closer_nonempty.
  intros Hpre Ho Hlo Hc Hlc Hbody. unfold replace_all.
  rewrite replace_from_skip.
  - f_equal.
    replace (o ++ body ++ c ++ post) with ((o ++ body ++ c) ++ post)
      by (now rewrite <- !app_assoc).
    rewrite (replace_from_match _ _ _ _ []).
    + reflexivity.
    + destruct o; [|discriminate].
      destruct opener; [congruence | discriminate].
    + rewrite <- !app_assoc. now apply block_matched.
  - intros i Hi. apply block_no_opener.
    now apply (occurs_within_none _ _ _ _ Hpre).
Qed.
End Blocks.

Lemma is_ci_lt (x : ascii) : is_ci "<" x = negb (not_c "<" x).
Proof.
  destruct x as [[] [] [] [] [] [] [] []]; reflexivity.
Qed.

Lemma is_c_lt (x : ascii) : is_c "<" x = negb (not_c "<" x).
Proof. unfold is_c, not_c. now rewrite negb_involutive. Qed.

Lemma seq_lit_starts_lt (p : text) (r : regex) :
  starts_lt (Seq (lit (T "<" ++ p)) r).
Proof.
  split.
  - unfold match_here. cbn [rmatch]. rewrite rmatch_lit by discriminate.
    reflexivity.
  - intros x t Hx. unfold match_here. cbn [rmatch].
    rewrite rmatch_lit by discriminate. cbn [T list_ascii_of_string app prefix_by].
    now rewrite is_c_lt, Hx.
Qed.

Lemma seq_lit_ci_starts_lt (p : text) (r : regex) :
  starts_lt (Seq (lit_ci (T "<" ++ p)) r).
Proof.
  split.
  - unfold match_here. cbn [rmatch]. rewrite rmatch_lit_ci by discriminate.
    reflexivity.
  - intros x t Hx. unfold match_here. cbn [rmatch].
    rewrite rmatch_lit_ci by discriminate.
    cbn [T list_ascii_of_string app prefix_by].
    now rewrite is_ci_lt, Hx.
Qed.

Section Scans.
Variable r : regex.
Hypothesis Hr : starts_lt r.

Lemma replace_from_plain (rep pre rest : text) :
  plain pre = true ->
  replace_from r rep 0 (pre ++ rest) = pre ++ replace_from r rep 0 rest.
Proof using Hr.
  induction pre as [|a pre IH]; intros Hp; [reflexivity|].
  cbn in Hp. apply andb_true_iff in Hp as [Ha Hp].
  cbn [app replace_from]. rewrite (proj2 Hr a _ Ha). f_equal. now apply IH.
Qed.

Lemma replace_all_plain (rep s : text) :
  plain s = true -> replace_all r rep s = s.
Proof using Hr.
  intros Hp. unfold replace_all.
  rewrite <- (app_nil_r s) at 1. rewrite replace_from_plain by assumption.
  cbn [replace_from]. rewrite (proj1 Hr). apply app_nil_r.
Qed.

Lemma exec_from_plain (pre rest : text) :
  plain pre = true -> exec_from r 0 (pre ++ rest) = exec_from r 0 rest.
Proof using Hr.
  induction pre as [|a pre IH]; intros Hp; [reflexivity|].
  cbn in Hp. apply andb_true_iff in Hp as [Ha Hp].
  cbn [app exec_from]. rewrite (proj2 Hr a _ Ha). now apply IH.
Qed.

Lemma exec_all_plain (s : text) : plain s = true -> exec_all r s = [].
Proof using Hr.
  intros Hp. unfold exec_all.
  rewrite <- (app_nil_r s). rewrite exec_from_plain by assumption.
  cbn [exec_from]. now rewrite (proj1 Hr).
Qed.

Lemma search_plain (pre rest : text) :
  plain pre = true ->
  search r (pre ++ rest)
  = match search r rest with
    | Some (before, m) => Some (pre ++ before, m)
    | None => None
    end.
Proof using Hr.
  induction pre as [|a pre IH]; intros Hp.
  - cbn [app]. now destruct (search r rest) as [[? ?]|].
  - cbn in Hp. apply andb_true_iff in Hp as [Ha Hp].
    cbn [app search]. rewrite (proj2 Hr a _ Ha), IH by assumption.
    now destruct (search r rest) as [[? ?]|].
Qed.
End Scans.

(** One position at which the pattern does not match. *)
Lemma replace_from_fail (r : regex) (rep : text) (x : ascii) (t : text) :
  match_here r (x :: t) = None ->
  replace_from r rep 0 (x :: t) = x :: replace_from r rep 0 t.
Proof. intros H. cbn [replace_from]. now rewrite H. Qed.

Lemma exec_from_fail (r : regex) (x : ascii) (t : text) :
  match_here r (x :: t) = None ->
  exec_from r 0 (x :: t) = exec_from r 0 t.
Proof. intros H. cbn [exec_from]. now rewrite H. Qed.

Lemma search_fail (r : regex) (x : ascii) (t : text) :
  match_here r (x :: t) = None ->
  search r (x :: t)
  = match search r t with
    | Some (before, m) => Some (x :: before, m)
    | None => None
    end.
Proof. intros H. cbn [search]. now rewrite H. Qed.

Lemma search_here (r : regex) (s : text) (m : rmatched) :
  match_here r s = Some m -> search r s = Some ([], m).
Proof. intros H. destruct s; cbn [search]; now rewrite H. Qed.

Lemma plain_app (a b : text) : plain (a ++ b) = plain a && plain b.
Proof. apply forallb_app. Qed.

Lemma attrs_plain (a : text) : attrs a = true -> plain a = true.
Proof.
  unfold attrs, plain. rewrite !forallb_forall. intros H x Hx.
  specialize (H x Hx). now apply andb_true_iff in H as [H _].
Qed.

Lemma attrs_no_gt (a : text) :
  attrs a = true -> Forall (fun x => not_c ">" x = true) a.
Proof.
  unfold attrs. rewrite forallb_forall, List.Forall_forall. intros H x Hx.
  specialize (H x Hx). now apply andb_true_iff in H as [_ H].
Qed.

Lemma consumes_seq (r1 r2 : regex) (s s1 s2 : text) :
  consumes r1 s s1 -> consumes r2 s1 s2 -> consumes (Seq r1 r2) s s2.
Proof.
  intros H1 H2 R k c x Hk. cbn [rmatch]. apply H1. now apply H2.
Qed.

Lemma eqb_ci_refl (a : ascii) : eqb_ci a a = true.
Proof. unfold eqb_ci. apply Ascii.eqb_refl. Qed.

Lemma prefix_by_refl (f : ascii -> ascii -> bool) (p rest : text) :
  (forall a, f a a = true) -> prefix_by f p (p ++ rest) = true.
Proof.
  intros Hf. induction p as [|a p IH]; [reflexivity|].
  cbn. now rewrite Hf, IH.
Qed.

Lemma consumes_lit_ci (p rest : text) :
  p <> [] -> consumes (lit_ci p) (p ++ rest) rest.
Proof.
  intros Hp R k c x Hk. rewrite rmatch_lit_ci by assumption.
  rewrite prefix_by_refl by (intros a; apply eqb_ci_refl).
  now rewrite drop_app_length.
Qed.

Lemma consumes_lit (p rest : text) :
  p <> [] -> consumes (lit p) (p ++ rest) rest.
Proof.
  intros Hp R k c x Hk. rewrite rmatch_lit by assumption.
  rewrite prefix_by_refl by (intros a; apply Ascii.eqb_refl).
  now rewrite drop_app_length.
Qed.

Lemma consumes_greedy (p : ascii -> bool) (body rest : text) :
  Forall (fun a => p a = true) body ->
  match rest with [] => True | a :: _ => p a = false end ->
  consumes (Star true p) (body ++ rest) rest.
Proof.
  intros Hb Hstop R k c x Hk. cbn [rmatch].
  now apply star_greedy_until.
Qed.

Lemma consumes_plus (p : ascii -> bool) (a : ascii) (body rest : text) :
  p a = true ->
  Forall (fun a => p a = true) body ->
  match rest with [] => True | a :: _ => p a = false end ->
  consumes (plus p) (a :: body ++ rest) rest.
Proof.
  intros Ha Hb Hstop R k c x Hk. unfold plus. cbn [rmatch]. rewrite Ha.
  now apply star_greedy_until.
Qed.

Lemma plain_occurs (f : ascii -> ascii -> bool) (p body rest : text) :
  (forall x, not_c "<" x = true -> f "<"%char x = false) ->
  plain body = true ->
  occurs_within f ("<"%char :: p) (length body) (body ++ rest) = false.
Proof.
  intros Hf. induction body as [|a body IH]; intros Hp; [reflexivity|].
  cbn in Hp. apply andb_true_iff in Hp as [Ha Hp].
  cbn. rewrite (Hf a Ha). now apply IH.
Qed.

Lemma consumes_lazy_until (closer body rest : text) :
  closer <> [] ->
  occurs_within is_ci closer (length body) (body ++ closer ++ rest) = false ->
  consumes (Seq (Star false any_char) (lit_ci closer)) (body ++ closer ++ rest) rest.
Proof.
  intros Hc Hocc R k c x Hk. cbn [rmatch].
  apply star_lazy_any.
  - intros i Hi. rewrite rmatch_lit_ci by assumption.
    now rewrite (occurs_within_none _ _ _ _ Hocc i Hi).
  - now apply consumes_lit_ci.
Qed.

Lemma consumes_match (r : regex) (m rest : text) :
  consumes r (m ++ rest) rest ->
  match_here r (m ++ rest) = Some (RMatched m rest []).
Proof.
  intros H. unfold match_here. apply H. now rewrite take_matched.
Qed.

Lemma is_ci_lt_false (x : ascii) : not_c "<" x = true -> is_ci "<" x = false.
Proof. intros H. now rewrite is_ci_lt, H. Qed.

Lemma lit_ci_mismatch (p : text) (r : regex) (s : text) :
  p <> [] -> prefix_by is_ci p s = false -> match_here (Seq (lit_ci p) r) s = None.
Proof.
  intros Hp H. unfold match_here. cbn [rmatch].
  rewrite rmatch_lit_ci by assumption. now rewrite H.
Qed.

Lemma lit_mismatch (p : text) (r : regex) (s : text) :
  p <> [] -> prefix_by is_c p s = false -> match_here (Seq (lit p) r) s = None.
Proof.
  intros Hp H. unfold match_here. cbn [rmatch].
  rewrite rmatch_lit by assumption. now rewrite H.
Qed.

Lemma star_greedy_none {R : Type} (p : ascii -> bool) (body rest : text)
    (k : text -> option R) :
  Forall (fun a => p a = true) body ->
  match rest with [] => True | a :: _ => p a = false end ->
  (forall x t, p x = true -> k (x :: t) = None) ->
  k rest = None ->
  star true p (body ++ rest) k = None.
Proof.
  intros Hall Hstop Hk Hrest. induction Hall as [|a body Ha _ IH].
  - cbn. destruct rest as [|b rest]; cbn; [exact Hrest|]. now rewrite Hstop.
  - cbn [app star]. rewrite Ha, IH. now apply Hk.
Qed.

Ltac text_eq :=
  repeat (progress (cbn [T list_ascii_of_string app]; rewrite <- ?app_assoc));
  reflexivity.

(** A scan passes over a [<] at which the pattern fails and over the
    plain text behind it. *)
Lemma search_over (r : regex) (w rest : text) :
  starts_lt r -> plain w = true ->
  match_here r (T "<" ++ w ++ rest) = None ->
  search r (T "<" ++ w ++ rest)
  = match search r rest with
    | Some (before, m) => Some (T "<" ++ w ++ before, m)
    | None => None
    end.
Proof.
  intros Hr Hw Hf. cbn [T list_ascii_of_string app] in *.
  rewrite search_fail by assumption. rewrite (search_plain _ Hr) by assumption.
  now destruct (search r rest) as [[? ?]|].
Qed.

Lemma replace_over (r : regex) (rep w rest : text) :
  starts_lt r -> plain w = true ->
  match_here r (T "<" ++ w ++ rest) = None ->
  replace_from r rep 0 (T "<" ++ w ++ rest)
  = T "<" ++ w ++ replace_from r rep 0 rest.
Proof.
  intros Hr Hw Hf. cbn [T list_ascii_of_string app] in *.
  rewrite replace_from_fail by assumption.
  now rewrite (replace_from_plain _ Hr) by assumption.
Qed.

Lemma exec_over (r : regex) (w rest : text) :
  starts_lt r -> plain w = true ->
  match_here r (T "<" ++ w ++ rest) = None ->
  exec_from r 0 (T "<" ++ w ++ rest) = exec_from r 0 rest.
Proof.
  intros Hr Hw Hf. cbn [T list_ascii_of_string app] in *.
  rewrite exec_from_fail by assumption.
  now rewrite (exec_from_plain _ Hr) by assumption.
Qed.

(** A match found with one continuation is found with every
    continuation that accepts at least as much. *)
Lemma star_accepts {R R' : Type} (g : bool) (p : ascii -> bool) (s : text)
    (k : text -> option R) (k' : text -> option R') :
  (forall s', k s' <> None -> k' s' <> None) ->
  star g p s k <> None -> star g p s k' <> None.
Proof.
  intros Hk. destruct g; induction s as [|a s IH]; cbn [star]; try apply Hk.
  - destruct (p a); [|apply Hk].
    destruct (star true p s k) eqn:E.
    + intros _. destruct (star true p s k') eqn:E'; [discriminate|].
      exfalso. apply IH; [discriminate | reflexivity].
    + intros H. destruct (star true p s k'); [discriminate | now apply Hk].
  - destruct (k (a :: s)) eqn:E.
    + intros _. destruct (k' (a :: s)) eqn:E'; [discriminate|].
      exfalso. apply (Hk (a :: s)); [now rewrite E | exact E'].
    + destruct (p a); [|congruence].
      intros H. destruct (k' (a :: s)); [discriminate | now apply IH].
Qed.

Lemma rmatch_accepts (r : regex) :
  forall (R R' : Type) (s : text) (c : caps)
         (k : text -> caps -> option R) (k' : text -> caps -> option R'),
    (forall s' c', k s' c' <> None -> k' s' c' <> None) ->
    rmatch r s c k <> None -> rmatch r s c k' <> None.
Proof.
  induction r as [|p|r1 IH1 r2 IH2|r1 IH1 r2 IH2|g p|n r IH|r IH|];
    intros R R' s c k k' Hk; cbn [rmatch].
  - apply Hk.
  - destruct s as [|a s]; [congruence|]. destruct (p a); [apply Hk | congruence].
  - apply IH1. intros s' c'. now apply IH2.
  - destruct (rmatch r1 s c k) eqn:E.
    + intros _. destruct (rmatch r1 s c k') eqn:E'; [discriminate|].
      exfalso. apply (IH1 _ _ s c k k' Hk); [now rewrite E | exact E'].
    + intros H. destruct (rmatch r1 s c k'); [discriminate|].
      now apply (IH2 _ _ s c k k' Hk).
  - apply star_accepts. intros s'. apply Hk.
  - apply IH. intros s' c'. apply Hk.
  - destruct (rmatch r s c (fun _ c' => Some c')); [apply Hk | congruence].
  - destruct s; [apply Hk | congruence].
Qed.

(** A pattern that begins with [r1] matches only where [r1] does. *)
Lemma match_here_seq_none (r1 r2 : regex) (s : text) :
  match_here r1 s = None -> match_here (Seq r1 r2) s = None.
Proof.
  intros H. unfold match_here in *. cbn [rmatch].
  match goal with
  | |- ?lhs = None => destruct lhs eqn:E; [|reflexivity]
  end.
  exfalso.
  refine (rmatch_accepts r1 _ _ s [] _ _ _ _ H); [|now rewrite E].
  intros s' c' _. discriminate.
Qed.

Lemma search_none (r : regex) (s : text) :
  search r s = None <-> forall i, (i <= length s)%nat -> match_here r (drop i s) = None.
Proof.
  induction s as [|a s IH]; cbn [search].
  - split.
    + intros H i _. rewrite drop_nil. now destruct (match_here r []).
    + intros H. pose proof (H 0%nat (Nat.le_refl _)) as H0. cbn in H0.
      now rewrite H0.
  - split.
    + destruct (match_here r (a :: s)) eqn:E; [discriminate|].
      destruct (search r s) as [[? ?]|] eqn:E'; [discriminate|].
      intros _ [|i] Hi; [exact E|]. cbn. apply IH; [reflexivity | cbn in Hi; lia].
    + intros H. pose proof (H 0%nat ltac:(lia)) as H0. cbn in H0. rewrite H0.
      assert (E : search r s = None).
      { apply IH. intros i Hi. apply (H (Datatypes.S i)). cbn. lia. }
      now rewrite E.
Qed.

Lemma search_seq_none (r1 r2 : regex) (s : text) :
  search r1 s = None -> search (Seq r1 r2) s = None.
Proof.
  rewrite !search_none. intros H i Hi. apply match_here_seq_none. now apply H.
Qed.

Lemma consumes_matches (r : regex) (s rest : text) :
  consumes r s rest -> matches r s rest id.
Proof. intros H R k c x Hk. now apply H. Qed.

Lemma matches_seq (r1 r2 : regex) (s s1 s2 : text) (f1 f2 : caps -> caps) :
  matches r1 s s1 f1 -> matches r2 s1 s2 f2 ->
  matches (Seq r1 r2) s s2 (fun c => f2 (f1 c)).
Proof. intros H1 H2 R k c x Hk. cbn [rmatch]. apply H1. now apply H2. Qed.

Lemma matches_group (n : nat) (r : regex) (m rest : text) (f : caps -> caps) :
  matches r (m ++ rest) rest f ->
  matches (Group n r) (m ++ rest) rest (fun c => (n, m) :: f c).
Proof.
  intros H R k c x Hk. cbn [rmatch]. apply H. now rewrite take_matched.
Qed.

Lemma matches_alt_l (r1 r2 : regex) (s rest : text) (f : caps -> caps) :
  matches r1 s rest f -> matches (Alt r1 r2) s rest f.
Proof. intros H R k c x Hk. cbn [rmatch]. now rewrite (H R k c x Hk). Qed.

Lemma matches_alt_r (r1 r2 : regex) (s rest : text) (f : caps -> caps) :
  rejects r1 s -> matches r2 s rest f -> matches (Alt r1 r2) s rest f.
Proof. intros Hr H R k c x Hk. cbn [rmatch]. rewrite Hr. now apply H. Qed.

Lemma matches_eos : matches Eos [] [] id.
Proof. intros R k c x Hk. exact Hk. Qed.

Lemma matches_ahead (r : regex) (s rest : text) :
  matches r s rest id -> matches (Ahead r) s s id.
Proof.
  intros H R k c x Hk. cbn [rmatch].
  now rewrite (H _ (fun _ c' => Some c') c c eq_refl).
Qed.

Lemma rejects_ahead (r : regex) (s : text) : rejects r s -> rejects (Ahead r) s.
Proof. intros H R k c. cbn [rmatch]. now rewrite H. Qed.

Lemma rejects_alt (r1 r2 : regex) (s : text) :
  rejects r1 s -> rejects r2 s -> rejects (Alt r1 r2) s.
Proof. intros H1 H2 R k c. cbn [rmatch]. now rewrite H1, H2. Qed.

Lemma rejects_seq (r1 r2 : regex) (s : text) : rejects r1 s -> rejects (Seq r1 r2) s.
Proof. intros H R k c. cbn [rmatch]. apply H. Qed.

Lemma rejects_chr (p : ascii -> bool) (x : ascii) (t : text) :
  p x = false -> rejects (Chr p) (x :: t).
Proof. intros H R k c. cbn [rmatch]. now rewrite H. Qed.

Lemma rejects_eos (x : ascii) (t : text) : rejects Eos (x :: t).
Proof. intros R k c. reflexivity. Qed.

Lemma nowhere_impl (P Q : text -> Prop) (b s : text) :
  (forall t, P t -> Q t) -> nowhere P b s -> nowhere Q b s.
Proof.
  intros HPQ. induction b as [|x b IH]; [trivial|].
  intros [Hx Hb]. split; [now apply HPQ | now apply IH].
Qed.

Lemma star_lazy_nowhere {R : Type} (body rest : text) (k : text -> option R) (x : R) :
  nowhere (fun s => k s = None) body rest ->
  k rest = Some x ->
  star false any_char (body ++ rest) k = Some x.
Proof.
  induction body as [|a body IH]; intros Hno Hk.
  - cbn. destruct rest; cbn; rewrite Hk; reflexivity.
  - destruct Hno as [Ha Hno]. cbn [app star]. rewrite Ha. cbn [any_char].
    now apply IH.
Qed.

(** The lazy [([\s\S]*?)] in a group, before the rest of the pattern. *)
Lemma matches_lazy_group (n : nat) (r : regex) (body s1 s2 : text)
    (f : caps -> caps) :
  nowhere (rejects r) body s1 ->
  matches r s1 s2 f ->
  matches (Seq (Group n (Star false any_char)) r) (body ++ s1) s2
          (fun c => f ((n, body) :: c)).
Proof.
  intros Hno Hr R k c x Hk. cbn [rmatch].
  apply star_lazy_nowhere.
  - revert Hno. apply nowhere_impl. intros t Ht. apply Ht.
  - rewrite take_matched. now apply Hr.
Qed.

Lemma nowhere_app (P : text -> Prop) (b1 b2 s : text) :
  nowhere P b1 (b2 ++ s) -> nowhere P b2 s -> nowhere P (b1 ++ b2) s.
Proof.
  induction b1 as [|x b1 IH]; intros H1 H2; [exact H2|].
  destruct H1 as [Hx H1]. cbn [app nowhere]. split.
  - now rewrite <- app_assoc.
  - now apply IH.
Qed.

Lemma nowhere_plain (P : text -> Prop) (b s : text) :
  (forall x t, not_c "<" x = true -> P (x :: t)) ->
  plain b = true -> nowhere P b s.
Proof.
  intros HP. induction b as [|x b IH]; intros Hb; [exact I|].
  cbn in Hb. apply andb_true_iff in Hb as [Hx Hb].
  split; [now apply HP | now apply IH].
Qed.

Lemma consumes_chr (p : ascii -> bool) (x : ascii) (t : text) :
  p x = true -> consumes (Chr p) (x :: t) t.
Proof. intros H R k c y Hk. cbn [rmatch]. now rewrite H. Qed.

Lemma matches_match (r : regex) (m rest : text) (f : caps -> caps) :
  matches r (m ++ rest) rest f ->
  match_here r (m ++ rest) = Some (RMatched m rest (f [])).
Proof. intros H. unfold match_here. apply H. now rewrite take_matched. Qed.

Lemma matches_found (r : regex) (m rest : text) (f : caps -> caps) (c : caps) :
  matches r (m ++ rest) rest f -> f [] = c ->
  match_here r (m ++ rest) = Some (RMatched m rest c).
Proof. intros H <-. now apply matches_match. Qed.

Lemma rejects_lit_lt (p : text) (r : regex) (x : ascii) (t : text) :
  not_c "<" x = true -> rejects (Seq (lit (T "<" ++ p)) r) (x :: t).
Proof.
  intros Hx. apply rejects_seq. intros R k c.
  rewrite rmatch_lit by discriminate. cbn [T list_ascii_of_string app prefix_by].
  now rewrite is_c_lt, Hx.
Qed.

Lemma rejects_lit_ci_lt (p : text) (r : regex) (x : ascii) (t : text) :
  not_c "<" x = true -> rejects (Seq (lit_ci (T "<" ++ p)) r) (x :: t).
Proof.
  intros Hx. apply rejects_seq. intros R k c.
  rewrite rmatch_lit_ci by discriminate. cbn [T list_ascii_of_string app prefix_by].
  now rewrite is_ci_lt, Hx.
Qed.

Lemma rejects_lit_ci (p s : text) :
  p <> [] -> prefix_by is_ci p s = false -> rejects (lit_ci p) s.
Proof. intros Hp H R k c. rewrite rmatch_lit_ci by assumption. now rewrite H. Qed.

Lemma rejects_lit_ci_plain (p : text) (x : ascii) (t : text) :
  not_c "<" x = true -> rejects (lit_ci (T "<" ++ p)) (x :: t).
Proof.
  intros Hx. apply rejects_lit_ci; [discriminate|].
  cbn [T list_ascii_of_string app prefix_by]. now rewrite is_ci_lt, Hx.
Qed.

(** Split a text into its pieces, and check a property at every
    position: in a variable piece by its first character, in a literal
    piece by evaluation. *)
Ltac nowhere_leaf plain_case :=
  first
    [ apply nowhere_plain; [intros ? ? ?; plain_case | assumption]
    | cbn [nowhere T list_ascii_of_string app];
      repeat split;
      first [ plain_case | intros ? ? ?; reflexivity ] ].

Ltac nowhere_pieces plain_case :=
  repeat (apply nowhere_app; [nowhere_leaf plain_case|]);
  nowhere_leaf plain_case.

End RegexFacts.

(** ** Text extraction *)

Module UtilsFacts.
Import Regex RegexFacts Utils.

(** C7, as amended. [htmlToText] removes the script blocks, then the
    style blocks, before any other step.  A script block (from [<script]
    to the first [</script>] behind it, in any case of letters) whose
    opener is the first in the page is cut out whole, and the removal
    goes on behind it; nothing of the block reaches the later steps.  The
    same holds for a style block in the text that the removal of the
    script blocks leaves. *)
Theorem C7_blocks_removed :
  (forall html, htmlToText html = textOfMarkup (removeStyles (removeScripts html))) /\
  (forall pre o body c post : text,
     occurs_within is_ci (T "<script") (length pre) (pre ++ o ++ body ++ c ++ post)
       = false ->
     prefix_by is_ci (T "<script") o = true -> length o = 7%nat ->
     prefix_by is_ci (T "</script>") c = true -> length c = 9%nat ->
     occurs_within is_ci (T "</script>") (length body) (body ++ c ++ post) = false ->
     removeScripts (pre ++ o ++ body ++ c ++ post) = pre ++ removeScripts post /\
     htmlToText (pre ++ o ++ body ++ c ++ post)
     = textOfMarkup (removeStyles (pre ++ removeScripts post))) /\
  (forall pre o body c post : text,
     occurs_within is_ci (T "<style") (length pre) (pre ++ o ++ body ++ c ++ post)
       = false ->
     prefix_by is_ci (T "<style") o = true -> length o = 6%nat ->
     prefix_by is_ci (T "</style>") c = true -> length c = 8%nat ->
     occurs_within is_ci (T "</style>") (length body) (body ++ c ++ post) = false ->
     removeStyles (pre ++ o ++ body ++ c ++ post) = pre ++ removeStyles post).
Proof.
  split; [reflexivity|]. split.
  - intros pre o body c post Hpre Ho Hlo Hc Hlc Hbody.
    assert (H : removeScripts (pre ++ o ++ body ++ c ++ post)
                = pre ++ removeScripts post).
    { apply (block_removed (T "<script") (T "</script>")); try assumption;
        discriminate. }
    split; [exact H|]. unfold htmlToText. now rewrite H.
  - intros pre o body c post Hpre Ho Hlo Hc Hlc Hbody.
    apply (block_removed (T "<style") (T "</style>")); try assumption;
      discriminate.
Qed.

Lemma C7_witness :
  removeScripts (T "<p>a</p><SCRIPT>alert(1)</script><b>c</b>")
    = T "<p>a</p><b>c</b>" /\
  removeStyles (T "<p>a</p><style>p{}</STYLE>d") = T "<p>a</p>d".
Proof.
  destruct C7_blocks_removed as (_ & Hscript & Hstyle). split.
  - apply (Hscript (T "<p>a</p>") (T "<SCRIPT") (T ">alert(1)") (T "</script>")
             (T "<b>c</b>")); reflexivity.
  - apply (Hstyle (T "<p>a</p>") (T "<style") (T ">p{}") (T "</STYLE>") (T "d"));
      reflexivity.
Defined.

(** The text of a style block reaches the output when the closing tag of
    the block lies inside a script block: the script block is removed
    first, and with it the end of the style block. *)
Lemma C7_counterexample :
  exists m,
    search styleRegex styleAroundScript = Some ([], m) /\
    m_text m = T "<style>body{color:red}<script>x</style>" /\
    htmlToText styleAroundScript = T "body{color:red}" /\
    includes (m_text m) (htmlToText styleAroundScript) = true.
Proof.
  eexists. split; [vm_compute; reflexivity|].
  split; [reflexivity|]. split; vm_compute; reflexivity.
Qed.

Lemma pushMatchText_filter (blocks : list text) (s : text) :
  pushMatchText blocks s
  = if longEnough (codeOf s) then blocks ++ [codeOf s] else blocks.
Proof.
  unfold pushMatchText, longEnough. fold (codeOf s).
  destruct (length (nonBlankLines (codeOf s))) as [|[|[|n]]];
    destruct (includes (codeOf s) (T "import")); reflexivity.
Qed.

Lemma fold_pushMatchText (l : list text) (blocks : list text) :
  fold_left pushMatchText l blocks
  = blocks ++ List.filter longEnough (List.map codeOf l).
Proof.
  revert blocks. induction l as [|s l IH]; intros blocks; cbn [fold_left].
  - cbn. now rewrite app_nil_r.
  - rewrite IH, pushMatchText_filter. cbn [List.map List.filter].
    destruct (longEnough (codeOf s)); [now rewrite <- app_assoc | reflexivity].
Qed.

Lemma extractCodeBlocks_passes (html : text) :
  extractCodeBlocks html
  = List.filter longEnough
      (List.map codeOf (List.map m_text (exec_all preCodeRegex html)))
    ++ List.filter longEnough
         (List.map codeOf (List.map m_text (exec_all codeRegex html))).
Proof. unfold extractCodeBlocks. now rewrite !fold_pushMatchText. Qed.



Lemma pass2_match (B body rest : text) :
  attrs B = true -> plain body = true ->
  match_here codeRegex (codeElement B body ++ rest)
  = Some (RMatched (codeElement B body) rest []).
Proof.
  intros HB Hbody. apply consumes_match. unfold codeRegex, codeElement.
  rewrite <- !app_assoc. cbn [seqs].
  eapply consumes_seq; [apply consumes_lit_ci; discriminate|].
  eapply consumes_seq; [apply consumes_greedy; [now apply attrs_no_gt | reflexivity]|].
  eapply consumes_seq; [apply consumes_lit; discriminate|].
  apply consumes_lazy_until; [discriminate|].
  apply plain_occurs; [apply is_ci_lt_false | assumption].
Qed.

Lemma pass1_match (A B body rest : text) :
  attrs A = true -> attrs B = true -> plain body = true ->
  match_here preCodeRegex (preBlock A B body ++ rest)
  = Some (RMatched (preBlock A B body) rest []).
Proof.
  intros HA HB Hbody. apply consumes_match. unfold preCodeRegex, preBlock, codeElement.
  rewrite <- !app_assoc. cbn [seqs].
  eapply consumes_seq; [apply consumes_lit_ci; discriminate|].
  eapply consumes_seq; [apply consumes_greedy; [now apply attrs_no_gt | reflexivity]|].
  eapply consumes_seq; [apply consumes_lit; discriminate|].
  eapply consumes_seq; [apply consumes_lit_ci; discriminate|].
  eapply consumes_seq; [apply consumes_greedy; [now apply attrs_no_gt | reflexivity]|].
  eapply consumes_seq; [apply consumes_lit; discriminate|].
  change (T "</code>" ++ T "</pre>" ++ rest) with (T "</code></pre>" ++ rest).
  apply consumes_lazy_until; [discriminate|].
  apply plain_occurs; [apply is_ci_lt_false | assumption].
Qed.

Lemma preCode_starts_lt : starts_lt preCodeRegex.
Proof. exact (seq_lit_ci_starts_lt (T "pre") _). Qed.

Lemma code_starts_lt : starts_lt codeRegex.
Proof. exact (seq_lit_ci_starts_lt (T "code") _). Qed.

Lemma script_starts_lt : starts_lt scriptRegex.
Proof. exact (seq_lit_ci_starts_lt (T "script") _). Qed.

Lemma style_starts_lt : starts_lt styleRegex.
Proof. exact (seq_lit_ci_starts_lt (T "style") _). Qed.

Lemma blockClose_starts_lt : starts_lt blockCloseRegex.
Proof. exact (seq_lit_starts_lt (T "/") _). Qed.

Lemma break_starts_lt : starts_lt breakRegex.
Proof. exact (seq_lit_starts_lt [] _). Qed.

Lemma tag_starts_lt : starts_lt tagRegex.
Proof. exact (seq_lit_starts_lt [] _). Qed.

Lemma lastTag_starts_lt : starts_lt lastTagRegex.
Proof. exact (seq_lit_starts_lt [] _). Qed.

(** A tag [<w>] at the head of the text. *)
Lemma tag_match (a : ascii) (w rest : text) :
  not_c ">" a = true -> Forall (fun x => not_c ">" x = true) w ->
  match_here tagRegex (T "<" ++ (a :: w) ++ T ">" ++ rest)
  = Some (RMatched (T "<" ++ (a :: w) ++ T ">") rest []).
Proof.
  intros Ha Hw.
  replace (T "<" ++ (a :: w) ++ T ">" ++ rest)
    with ((T "<" ++ (a :: w) ++ T ">") ++ rest) by (now rewrite <- !app_assoc).
  apply consumes_match. rewrite <- !app_assoc. unfold tagRegex. cbn [seqs].
  eapply consumes_seq; [apply consumes_lit; discriminate|].
  eapply consumes_seq; [|apply consumes_lit; discriminate].
  cbn [app]. apply consumes_plus; [assumption | assumption | reflexivity].
Qed.

(** A tag that is not the end of the text is not a last tag. *)
Lemma lastTag_fail (w rest : text) :
  Forall (fun x => not_c ">" x = true) w -> rest <> [] ->
  match_here lastTagRegex (T "<" ++ w ++ T ">" ++ rest) = None.
Proof.
  intros Hw Hrest. unfold match_here, lastTagRegex, plus. cbn [seqs rmatch T
    list_ascii_of_string app lit].
  change (is_c "<" "<") with true. cbv iota.
  destruct Hw as [|a w Ha Hw]; cbn [app].
  - reflexivity.
  - rewrite Ha. apply star_greedy_none; [assumption | reflexivity | |].
    + intros x t Hx. unfold is_c. unfold not_c in Hx.
      apply negb_true_iff in Hx. now rewrite Hx.
    + change (is_c ">" ">") with true. cbv iota.
      destruct rest; [congruence | reflexivity].
Qed.

Lemma pre_chars_plain (A : text) : attrs A = true -> plain (T "pre" ++ A ++ T ">") = true.
Proof. intros H. rewrite !plain_app, (attrs_plain _ H). reflexivity. Qed.

Lemma code_chars_plain (B body : text) :
  attrs B = true -> plain body = true ->
  plain (T "code" ++ B ++ T ">" ++ body) = true.
Proof. intros HB Hb. rewrite !plain_app, (attrs_plain _ HB), Hb. reflexivity. Qed.

Lemma attrs_forall_app (w A : text) :
  attrs w = true -> attrs A = true ->
  Forall (fun x => not_c ">" x = true) (w ++ A).
Proof. intros Hw HA. apply Forall_app. split; now apply attrs_no_gt. Qed.

Lemma innerOf_preBlock (A B body : text) :
  attrs A = true -> attrs B = true -> plain body = true ->
  innerOf (preBlock A B body) = codeElement B body.
Proof.
  intros HA HB Hbody. unfold innerOf, replace_at_start, firstTagRegex.
  assert (H1 : match_here tagRegex (preBlock A B body)
               = Some (RMatched (T "<pre" ++ A ++ T ">")
                                (codeElement B body ++ T "</pre>") [])).
  { exact (tag_match "p" (T "re" ++ A) (codeElement B body ++ T "</pre>")
             eq_refl (attrs_forall_app (T "re") A eq_refl HA)). }
  rewrite H1. cbn [m_rest app]. unfold replace_first.
  assert (H2 : search lastTagRegex (codeElement B body ++ T "</pre>")
               = Some (codeElement B body, RMatched (T "</pre>") [] [])).
  { replace (codeElement B body ++ T "</pre>")
      with (T "<" ++ (T "code" ++ B ++ T ">" ++ body) ++ T "</code></pre>")
      by (unfold codeElement; text_eq).
    rewrite (search_over _ _ _ lastTag_starts_lt (code_chars_plain _ _ HB Hbody)).
    - replace (codeElement B body)
        with (T "<" ++ (T "code" ++ B ++ T ">" ++ body) ++ T "</code>")
        by (unfold codeElement; text_eq).
      reflexivity.
    - replace (T "<" ++ (T "code" ++ B ++ T ">" ++ body) ++ T "</code></pre>")
        with (T "<" ++ (T "code" ++ B) ++ T ">" ++ (body ++ T "</code></pre>"))
        by text_eq.
      apply lastTag_fail; [apply (attrs_forall_app (T "code") B eq_refl HB)|].
      destruct body; discriminate. }
  rewrite H2. cbn [m_rest]. now rewrite !app_nil_r.
Qed.

Lemma innerOf_codeElement (B body : text) :
  attrs B = true -> plain body = true ->
  innerOf (codeElement B body) = body.
Proof.
  intros HB Hbody. unfold innerOf, replace_at_start, firstTagRegex.
  assert (H1 : match_here tagRegex (codeElement B body)
               = Some (RMatched (T "<code" ++ B ++ T ">") (body ++ T "</code>") [])).
  { exact (tag_match "c" (T "ode" ++ B) (body ++ T "</code>")
             eq_refl (attrs_forall_app (T "ode") B eq_refl HB)). }
  rewrite H1. cbn [m_rest app]. unfold replace_first.
  rewrite (search_plain _ lastTag_starts_lt) by assumption.
  change (search lastTagRegex (T "</code>"))
    with (Some (@nil ascii, RMatched (T "</code>") [] [])).
  cbn [m_rest]. now rewrite !app_nil_r.
Qed.

(** The passes that do not touch a [<code>] element. *)
Lemma pass_keeps_codeElement (r : regex) (rep B body : text) :
  starts_lt r ->
  (forall X, match_here r (T "<code" ++ X) = None) ->
  replace_from r rep 0 (T "</code>") = T "</code>" ->
  attrs B = true -> plain body = true ->
  replace_all r rep (codeElement B body) = codeElement B body.
Proof.
  intros Hr Hopen Hclose HB Hbody. unfold replace_all.
  replace (codeElement B body)
    with (T "<" ++ (T "code" ++ B ++ T ">" ++ body) ++ T "</code>")
    by (unfold codeElement; text_eq).
  rewrite (replace_over _ _ _ _ Hr (code_chars_plain _ _ HB Hbody)).
  - now rewrite Hclose.
  - replace (T "<" ++ (T "code" ++ B ++ T ">" ++ body) ++ T "</code>")
      with (T "<code" ++ (B ++ T ">" ++ body ++ T "</code>")) by text_eq.
    apply Hopen.
Qed.

Lemma tags_of_codeElement (B body : text) :
  attrs B = true -> plain body = true ->
  replace_all tagRegex [] (codeElement B body) = body.
Proof.
  intros HB Hbody. unfold replace_all.
  replace (codeElement B body)
    with ((T "<code" ++ B ++ T ">") ++ body ++ T "</code>")
    by (unfold codeElement; text_eq).
  rewrite (replace_from_match _ _ _ _ []); [|discriminate|].
  - rewrite (replace_from_plain _ tag_starts_lt) by assumption.
    change (replace_from tagRegex [] 0 (T "</code>")) with (@nil ascii).
    now rewrite app_nil_r.
  - rewrite <- !app_assoc.
    exact (tag_match "c" (T "ode" ++ B) (body ++ T "</code>")
             eq_refl (attrs_forall_app (T "ode") B eq_refl HB)).
Qed.

Lemma htmlToText_codeElement (B body : text) :
  attrs B = true -> plain body = true ->
  htmlToText (codeElement B body) = htmlToText body.
Proof.
  intros HB Hbody. unfold htmlToText, removeScripts, removeStyles, textOfMarkup.
  rewrite (pass_keeps_codeElement scriptRegex), (pass_keeps_codeElement styleRegex),
    (pass_keeps_codeElement blockCloseRegex), (pass_keeps_codeElement breakRegex),
    tags_of_codeElement; try assumption; try reflexivity.
  - rewrite (replace_all_plain scriptRegex), (replace_all_plain styleRegex),
      (replace_all_plain blockCloseRegex), (replace_all_plain breakRegex),
      (replace_all_plain tagRegex); try assumption; try reflexivity.
    + apply tag_starts_lt.
    + apply break_starts_lt.
    + apply blockClose_starts_lt.
    + apply style_starts_lt.
    + apply script_starts_lt.
  - apply break_starts_lt.
  - apply blockClose_starts_lt.
  - apply style_starts_lt.
  - apply script_starts_lt.
Qed.

Lemma pass1_matches (pre A B body post : text) :
  plain pre = true -> attrs A = true -> attrs B = true -> plain body = true ->
  exec_all preCodeRegex (pre ++ preBlock A B body ++ post)
  = RMatched (preBlock A B body) post [] :: exec_all preCodeRegex post.
Proof.
  intros Hpre HA HB Hbody. unfold exec_all.
  rewrite (exec_from_plain _ preCode_starts_lt) by assumption.
  apply exec_from_match; [discriminate | now apply pass1_match].
Qed.

Lemma pass2_matches (pre A B body post : text) :
  plain pre = true -> attrs A = true -> attrs B = true -> plain body = true ->
  exec_all codeRegex (pre ++ preBlock A B body ++ post)
  = RMatched (codeElement B body) (T "</pre>" ++ post) []
    :: exec_all codeRegex (T "</pre>" ++ post).
Proof.
  intros Hpre HA HB Hbody. unfold exec_all.
  rewrite (exec_from_plain _ code_starts_lt) by assumption.
  replace (preBlock A B body ++ post)
    with (T "<" ++ (T "pre" ++ A ++ T ">") ++ codeElement B body ++ T "</pre>" ++ post)
    by (unfold preBlock; text_eq).
  rewrite (exec_over _ _ _ code_starts_lt (pre_chars_plain _ HA)) by reflexivity.
  apply exec_from_match; [discriminate | now apply pass2_match].
Qed.

Lemma examples_of_page (html : text) :
  examples (extractAPIInfo html) = examplesOf (extractCodeBlocks html).
Proof.
  unfold extractAPIInfo, extractAPIInfo_js, extractAPIInfo_log, extractAPIInfo_try.
  destruct (search brainAPIRegex html) as [[? ?]|];
    destruct (search helmAPIRegex html) as [[? ?]|]; reflexivity.
Qed.

Lemma codeOf_codeElement (B body : text) :
  attrs B = true -> plain body = true ->
  codeOf (codeElement B body) = htmlToText body.
Proof. intros HB Hb. unfold codeOf. now rewrite innerOf_codeElement. Qed.

Lemma codeOf_preBlock (A B body : text) :
  attrs A = true -> attrs B = true -> plain body = true ->
  codeOf (preBlock A B body) = htmlToText body.
Proof.
  intros HA HB Hb. unfold codeOf.
  now rewrite innerOf_preBlock, htmlToText_codeElement.
Qed.




(** C2. On a page without a heading "Brain API" and without a heading
    "Helm API", [extractAPIInfo] returns empty [brainAPI] and [helmAPI],
    with [examples] built from the code blocks of the page.  On every
    string the [try] block ends without an exception; on any value, when
    an exception is thrown and caught, the object returned is the
    zero-value, all sequences empty. *)
Theorem C2_no_sections :
  (forall html : text,
     search (headingRegex (T "Brain API")) html = None ->
     search (headingRegex (T "Helm API")) html = None ->
     extractAPIInfo html = ApiInfo [] [] (examplesOf (extractCodeBlocks html))) /\
  (forall html : text, snd (extractAPIInfo_log (VString html)) = None) /\
  (forall v : js_value,
     snd (extractAPIInfo_log v) <> None -> extractAPIInfo_js v = emptyApiInfo).
Proof.
  split; [|split].
  - intros html Hb Hh.
    unfold extractAPIInfo, extractAPIInfo_js, extractAPIInfo_log, extractAPIInfo_try.
    rewrite (search_seq_none _ _ _ Hb : search brainAPIRegex html = None).
    rewrite (search_seq_none _ _ _ Hh : search helmAPIRegex html = None).
    reflexivity.
  - intros html. reflexivity.
  - intros [s| | | |] H; try reflexivity. now contradiction H.
Qed.

Lemma C2_witness :
  extractAPIInfo (T "<h1>Button</h1><p>No API here</p>") = ApiInfo [] [] [].
Proof.
  destruct C2_no_sections as (H & _ & _).
  rewrite (H (T "<h1>Button</h1><p>No API here</p>")); reflexivity.
Defined.

Lemma rowStep_data (t : table_type) (rows : list text) (props : list prop_entry) :
  fold_left (rowStep t) rows (props, false)
  = (props ++ flat_map (rowProps t) rows, false).
Proof.
  revert props. induction rows as [|row rows IH]; intros props; cbn [fold_left flat_map].
  - now rewrite app_nil_r.
  - unfold rowStep at 2, rowProps at 1.
    destruct (3 <=? length (cellsOf row))%nat.
    + destruct t; rewrite IH, <- app_assoc; reflexivity.
    + rewrite IH. reflexivity.
Qed.

Lemma rowStep_header (t : table_type) (rows : list text) :
  fst (fold_left (rowStep t) rows ([], true)) = flat_map (rowProps t) (tl rows).
Proof.
  destruct rows as [|hdr rows]; [reflexivity|].
  cbn [fold_left tl]. unfold rowStep at 2. now rewrite rowStep_data.
Qed.

Lemma extractProps_rows (content : text) (t : table_type) (before : text)
    (tm : rmatched) :
  search (tableSectionRegex t) content = Some (before, tm) ->
  extractPropsFromTable content t
  = flat_map (rowProps t) (tl (captures rowRegex 1 (cap 1 (m_caps tm)))).
Proof.
  intros H. unfold extractPropsFromTable. rewrite H. apply rowStep_header.
Qed.

Lemma cell_match (c rest : text) :
  plain c = true ->
  match_here cellRegex (cell c ++ rest) = Some (RMatched (cell c) rest [(1, c)]).
Proof.
  intros Hc. apply (matches_match _ _ _ (fun caps => (1, c) :: caps)).
  unfold cellRegex, cell. rewrite <- !app_assoc. cbn [seqs].
  change (T "<td>" ++ c ++ T "</td>" ++ rest)
    with (T "<" ++ "t"%char :: "d"%char :: [] ++ T ">" ++ c ++ T "</td>" ++ rest).
  change (fun caps : caps => (1, c) :: caps)
    with (fun caps : caps => (fun c0 => (1, c) :: c0) (id (id (id (id (id caps)))))).
  eapply matches_seq; [apply consumes_matches, consumes_lit; discriminate|].
  eapply matches_seq; [apply consumes_matches, consumes_chr; reflexivity|].
  eapply matches_seq; [apply consumes_matches, consumes_chr; reflexivity|].
  eapply matches_seq;
    [apply consumes_matches, (consumes_greedy _ []); [constructor | reflexivity]|].
  eapply matches_seq; [apply consumes_matches, consumes_lit; discriminate|].
  apply (matches_lazy_group 1 cellClose c (T "</td>" ++ rest) rest id).
  - apply nowhere_plain; [|assumption].
    intros x t Hx. now apply (rejects_lit_lt (T "/")).
  - apply consumes_matches. unfold cellClose. cbn [seqs].
    change (T "</td>" ++ rest)
      with (T "</" ++ "t"%char :: "d"%char :: T ">" ++ rest).
    eapply consumes_seq; [apply (consumes_lit (T "</")); discriminate|].
    eapply consumes_seq; [apply consumes_chr; reflexivity|].
    eapply consumes_seq; [apply consumes_chr; reflexivity|].
    apply (consumes_lit (T ">")). discriminate.
Qed.

Lemma cell_nonempty (c : text) : cell c <> [].
Proof. discriminate. Qed.

Lemma cells_of_dataRow (c1 c2 c3 c4 : text) :
  plain c1 = true -> plain c2 = true -> plain c3 = true -> plain c4 = true ->
  captures cellRegex 1 (dataRow c1 c2 c3 c4) = [c1; c2; c3; c4].
Proof.
  intros H1 H2 H3 H4. unfold captures, exec_all, dataRow.
  rewrite (exec_from_match _ _ _ _ (cell_nonempty c1) (cell_match c1 _ H1)).
  rewrite (exec_from_match _ _ _ _ (cell_nonempty c2) (cell_match c2 _ H2)).
  rewrite (exec_from_match _ _ _ _ (cell_nonempty c3) (cell_match c3 _ H3)).
  rewrite <- (app_nil_r (cell c4)).
  rewrite (exec_from_match _ _ _ _ (cell_nonempty c4) (cell_match c4 _ H4)).
  reflexivity.
Qed.

Lemma row_match (r rest : text) :
  nowhere (rejects (lit_ci (T "</tr>"))) r (T "</tr>" ++ rest) ->
  match_here rowRegex (tableRow r ++ rest) = Some (RMatched (tableRow r) rest [(1, r)]).
Proof.
  intros Hr. apply (matches_match _ _ _ (fun caps => (1, r) :: caps)).
  unfold rowRegex, tableRow. rewrite <- !app_assoc. cbn [seqs].
  change (T "<tr>" ++ r ++ T "</tr>" ++ rest)
    with (T "<tr" ++ [] ++ T ">" ++ r ++ T "</tr>" ++ rest).
  change (fun caps : caps => (1, r) :: caps)
    with (fun caps : caps => (fun c0 => (1, r) :: c0) (id (id (id caps)))).
  eapply matches_seq; [apply consumes_matches, consumes_lit_ci; discriminate|].
  eapply matches_seq;
    [apply consumes_matches, (consumes_greedy _ []); [constructor | reflexivity]|].
  eapply matches_seq; [apply consumes_matches, consumes_lit; discriminate|].
  apply (matches_lazy_group 1 (lit_ci (T "</tr>")) r (T "</tr>" ++ rest) rest id).
  - exact Hr.
  - apply consumes_matches, consumes_lit_ci. discriminate.
Qed.

Lemma tableRow_nonempty (r : text) : tableRow r <> [].
Proof. discriminate. Qed.

Lemma rows_of_inputsTable (hdr c1 c2 c3 c4 : text) :
  plain hdr = true ->
  plain c1 = true -> plain c2 = true -> plain c3 = true -> plain c4 = true ->
  captures rowRegex 1 (inputsTable hdr c1 c2 c3 c4) = [hdr; dataRow c1 c2 c3 c4].
Proof.
  intros Hh H1 H2 H3 H4.
  assert (N1 : forall rest,
             nowhere (rejects (lit_ci (T "</tr>"))) hdr (T "</tr>" ++ rest)).
  { intros rest.
    nowhere_pieces ltac:(now apply (rejects_lit_ci_plain (T "/tr>"))). }
  assert (N2 : forall rest,
             nowhere (rejects (lit_ci (T "</tr>"))) (dataRow c1 c2 c3 c4)
                     (T "</tr>" ++ rest)).
  { intros rest. unfold dataRow, cell. rewrite <- !app_assoc.
    nowhere_pieces ltac:(now apply (rejects_lit_ci_plain (T "/tr>"))). }
  unfold captures, exec_all, inputsTable.
  change (T "<table>" ++ ?X) with (T "<" ++ T "table>" ++ X).
  rewrite (exec_over rowRegex (T "table>") _ (seq_lit_ci_starts_lt (T "tr") _) eq_refl)
    by reflexivity.
  rewrite (exec_from_match _ _ _ _ (tableRow_nonempty _) (row_match hdr _ (N1 _))).
  rewrite (exec_from_match _ _ _ _ (tableRow_nonempty _)
             (row_match (dataRow c1 c2 c3 c4) _ (N2 _))).
  reflexivity.
Qed.

Lemma hOpen_consumed (d : ascii) (rest : text) :
  in_range 49 54 d = true ->
  consumes hOpen (T "<h" ++ d :: T ">" ++ rest) rest.
Proof.
  intros Hd. unfold hOpen. cbn [seqs].
  change (T "<h" ++ d :: T ">" ++ rest)
    with (T "<" ++ "h"%char :: d :: [] ++ T ">" ++ rest).
  eapply consumes_seq; [apply consumes_lit; discriminate|].
  eapply consumes_seq; [apply consumes_chr; reflexivity|].
  eapply consumes_seq; [apply consumes_chr; assumption|].
  eapply consumes_seq; [apply (consumes_greedy _ []); [constructor | reflexivity]|].
  apply consumes_lit. discriminate.
Qed.

Lemma hClose_consumed (d : ascii) (rest : text) :
  in_range 49 54 d = true ->
  consumes hClose (T "</h" ++ d :: T ">" ++ rest) rest.
Proof.
  intros Hd. unfold hClose. cbn [seqs].
  change (T "</h" ++ d :: T ">" ++ rest)
    with (T "</" ++ "h"%char :: d :: T ">" ++ rest).
  eapply consumes_seq; [apply consumes_lit; discriminate|].
  eapply consumes_seq; [apply consumes_chr; reflexivity|].
  eapply consumes_seq; [apply consumes_chr; assumption|].
  apply consumes_lit. discriminate.
Qed.

Lemma heading_consumed (d : ascii) (title rest : text) :
  in_range 49 54 d = true -> title <> [] ->
  consumes (headingRegex title) (heading d title ++ rest) rest.
Proof.
  intros Hd Ht. unfold headingRegex, heading. cbn [seqs].
  replace ((T "<h" ++ d :: T ">" ++ title ++ T "</h" ++ d :: T ">") ++ rest)
    with (T "<h" ++ d :: T ">" ++ title ++ T "</h" ++ d :: T ">" ++ rest)
    by text_eq.
  eapply consumes_seq; [now apply hOpen_consumed|].
  eapply consumes_seq; [now apply consumes_lit_ci|].
  now apply hClose_consumed.
Qed.

Lemma rejects_hOpen_plain (x : ascii) (t : text) :
  not_c "<" x = true -> rejects hOpen (x :: t).
Proof. exact (rejects_lit_lt [] _ x t). Qed.

(** The end of a section: every lookahead of the section patterns
    accepts the end of the text. *)
Lemma ahead_at_end (r : regex) :
  rejects r [] -> matches (Ahead (Alt r Eos)) [] [] id.
Proof.
  intros Hr. apply (matches_ahead _ [] []).
  apply matches_alt_r; [exact Hr | exact matches_eos].
Qed.

Lemma rejects_ahead_plain (r : regex) (x : ascii) (t : text) :
  rejects r (x :: t) -> rejects (Ahead (Alt r Eos)) (x :: t).
Proof. intros H. apply rejects_ahead, rejects_alt; [exact H | apply rejects_eos]. Qed.

Lemma inputs_section_found (hdr c1 c2 c3 c4 : text) :
  plain hdr = true ->
  plain c1 = true -> plain c2 = true -> plain c3 = true -> plain c4 = true ->
  search (tableSectionRegex Inputs) (inputsSection hdr c1 c2 c3 c4)
  = Some ([], RMatched (inputsSection hdr c1 c2 c3 c4) []
                       [(1, inputsTable hdr c1 c2 c3 c4)]).
Proof.
  intros Hh H1 H2 H3 H4. apply search_here.
  rewrite <- (app_nil_r (inputsSection hdr c1 c2 c3 c4)) at 1.
  apply (matches_match _ _ _ (fun caps => (1, inputsTable hdr c1 c2 c3 c4) :: caps)).
  rewrite app_nil_r. unfold tableSectionRegex, inputsSection. cbn [seqs tableName].
  change (fun caps : caps => (1, inputsTable hdr c1 c2 c3 c4) :: caps)
    with (fun caps : caps =>
            (fun c0 => id ((1, inputsTable hdr c1 c2 c3 c4) :: c0)) (id caps)).
  eapply matches_seq;
    [apply consumes_matches, heading_consumed; [reflexivity | discriminate]|].
  rewrite <- (app_nil_r (inputsTable hdr c1 c2 c3 c4)) at 1.
  apply (matches_lazy_group 1 (Ahead (Alt tableAhead Eos))).
  - unfold inputsTable, tableRow, dataRow, cell. rewrite <- !app_assoc.
    nowhere_pieces ltac:(apply rejects_ahead_plain;
                         now apply (rejects_lit_lt [])).
  - apply ahead_at_end. intros R k c. reflexivity.
Qed.

Lemma is_word_plain (x : ascii) : is_word x = true -> not_c "<" x = true.
Proof. destruct x as [[] [] [] [] [] [] [] []]; vm_compute; congruence. Qed.

Lemma words_plain (w : text) : forallb is_word w = true -> plain w = true.
Proof.
  unfold plain. rewrite !forallb_forall. intros H x Hx.
  apply is_word_plain. now apply H.
Qed.

Lemma words_forall (w : text) :
  forallb is_word w = true -> Forall (fun x => is_word x = true) w.
Proof. rewrite forallb_forall, List.Forall_forall. auto. Qed.

Lemma component_found (a : ascii) (w hdr c1 c2 c3 c4 : text) :
  is_word a = true -> forallb is_word w = true ->
  plain hdr = true ->
  plain c1 = true -> plain c2 = true -> plain c3 = true -> plain c4 = true ->
  exec_all componentRegex (componentSection a w hdr c1 c2 c3 c4)
  = [RMatched (componentSection a w hdr c1 c2 c3 c4) []
       [(3, inputsSection hdr c1 c2 c3 c4); (1, T "Brn" ++ a :: w); (2, T "Brn")]].
Proof.
  intros Ha Hw Hh H1 H2 H3 H4. unfold exec_all.
  rewrite <- (app_nil_r (componentSection a w hdr c1 c2 c3 c4)) at 1.
  rewrite (exec_from_match _ _ [] [(3, inputsSection hdr c1 c2 c3 c4);
                                   (1, T "Brn" ++ a :: w); (2, T "Brn")]);
    [reflexivity | discriminate |].
  eapply matches_found.
  {
    rewrite app_nil_r. unfold componentRegex, componentSection, heading. cbn [seqs].
    replace ((T "<h" ++ "3"%char :: T ">" ++ (T "Brn" ++ a :: w)
              ++ T "</h" ++ "3"%char :: T ">") ++ inputsSection hdr c1 c2 c3 c4)
      with (T "<h" ++ "3"%char :: T ">" ++ (T "Brn" ++ a :: w)
            ++ T "</h" ++ "3"%char :: T ">" ++ inputsSection hdr c1 c2 c3 c4)
      by text_eq.
    eapply matches_seq; [apply consumes_matches, hOpen_consumed; reflexivity|].
    eapply matches_seq.
    { apply (matches_group 1).
      replace ((T "Brn" ++ a :: w) ++ T "</h" ++ "3"%char :: T ">"
               ++ inputsSection hdr c1 c2 c3 c4)
        with (T "Brn" ++ a :: w ++ T "</h" ++ "3"%char :: T ">"
              ++ inputsSection hdr c1 c2 c3 c4)
        by text_eq.
      eapply matches_seq.
      - apply (matches_group 2 _ (T "Brn")). apply matches_alt_l.
        apply consumes_matches, consumes_lit_ci. discriminate.
      - apply consumes_matches, consumes_plus;
          [assumption | now apply words_forall | reflexivity]. }
    eapply matches_seq; [apply consumes_matches, hClose_consumed; reflexivity|].
    rewrite <- (app_nil_r (inputsSection hdr c1 c2 c3 c4)) at 1.
    eapply (matches_lazy_group 3 (Ahead (Alt componentAhead Eos))).
    - unfold inputsSection, heading, inputsTable, tableRow, dataRow, cell.
      rewrite <- !app_assoc.
      nowhere_pieces ltac:(apply rejects_ahead_plain, rejects_seq;
                           now apply rejects_hOpen_plain).
    - apply ahead_at_end. intros R k c. reflexivity.
  }
  reflexivity.
Qed.

Lemma brainAPI_starts_lt : starts_lt brainAPIRegex.
Proof.
  split; [reflexivity|]. intros x t Hx. unfold match_here, brainAPIRegex.
  cbn [seqs]. apply rejects_seq. unfold headingRegex. cbn [seqs].
  apply rejects_seq. now apply rejects_hOpen_plain.
Qed.

Lemma brain_section_found (pre : text) (a : ascii) (w hdr c1 c2 c3 c4 : text) :
  plain pre = true ->
  is_word a = true -> forallb is_word w = true ->
  plain hdr = true ->
  plain c1 = true -> plain c2 = true -> plain c3 = true -> plain c4 = true ->
  search brainAPIRegex (brainPage pre a w hdr c1 c2 c3 c4)
  = Some (pre, RMatched (heading "2" (T "Brain API")
                         ++ componentSection a w hdr c1 c2 c3 c4) []
                        [(1, componentSection a w hdr c1 c2 c3 c4)]).
Proof.
  intros Hpre Ha Hw Hh H1 H2 H3 H4.
  pose proof (words_plain _ Hw) as Hw'.
  pose proof (is_word_plain _ Ha) as Ha'.
  unfold brainPage. rewrite (search_plain _ brainAPI_starts_lt) by assumption.
  erewrite search_here; [now rewrite app_nil_r|].
  rewrite <- (app_nil_r (heading "2" (T "Brain API") ++ _)) at 1.
  eapply matches_found.
  { rewrite app_nil_r. unfold brainAPIRegex. cbn [seqs].
    eapply matches_seq;
      [apply consumes_matches, heading_consumed; [reflexivity | discriminate]|].
    rewrite <- (app_nil_r (componentSection a w hdr c1 c2 c3 c4)) at 1.
    eapply (matches_lazy_group 1 (Ahead (Alt brainAhead Eos))).
    - replace (componentSection a w hdr c1 c2 c3 c4)
        with (T "<h3>Brn" ++ [a] ++ w ++ T "</h3><h4>Inputs</h4><table><tr>"
              ++ hdr ++ T "</tr><tr><td>" ++ c1 ++ T "</td><td>" ++ c2
              ++ T "</td><td>" ++ c3 ++ T "</td><td>" ++ c4
              ++ T "</td></tr></table>")
        by (unfold componentSection, inputsSection, heading, inputsTable,
              tableRow, dataRow, cell; text_eq).
      nowhere_pieces ltac:(apply rejects_ahead_plain, rejects_seq;
                           now apply rejects_hOpen_plain).
    - apply ahead_at_end. intros R k c. reflexivity. }
  reflexivity.
Qed.

Lemma single_row_pipeline
    (html before before' c1 c2 c3 c4 hdr row : text) (m cm tm : rmatched) :
  search brainAPIRegex html = Some (before, m) ->
  exec_all componentRegex (cap 1 (m_caps m)) = [cm] ->
  search (tableSectionRegex Inputs) (cap 3 (m_caps cm)) = Some (before', tm) ->
  captures rowRegex 1 (cap 1 (m_caps tm)) = [hdr; row] ->
  captures cellRegex 1 row = [c1; c2; c3; c4] ->
  exists selector outputs,
    brainAPI (extractAPIInfo html)
    = [ComponentRecord (cap 1 (m_caps cm)) selector
         [PropEntry (trim (htmlToText c1)) (trim (htmlToText c2))
                    (Some (trim (htmlToText c3))) (trim (htmlToText c4))]
         outputs].
Proof.
  intros Hm Hcm Htm Hrows Hcells.
  unfold extractAPIInfo, extractAPIInfo_js, extractAPIInfo_log, extractAPIInfo_try.
  rewrite Hm.
  eexists _, _.
  destruct (search helmAPIRegex html) as [[? ?]|];
    cbn [fst brainAPI helmAPI examples];
    unfold extractAPIComponents; rewrite Hcm; cbn [List.map];
    unfold componentOf; rewrite (extractProps_rows _ _ _ _ Htm), Hrows;
    cbn [tl flat_map]; unfold rowProps, cellsOf; rewrite Hcells;
    cbn [List.map length Nat.leb cellOrEmpty nth_error app]; reflexivity.
Qed.

Lemma brainPage_api (pre : text) (a : ascii) (w hdr c1 c2 c3 c4 : text) :
  plain pre = true ->
  is_word a = true -> forallb is_word w = true ->
  plain hdr = true ->
  plain c1 = true -> plain c2 = true -> plain c3 = true -> plain c4 = true ->
  exists selector outputs,
    brainAPI (extractAPIInfo (brainPage pre a w hdr c1 c2 c3 c4))
    = [ComponentRecord (T "Brn" ++ a :: w) selector
         [PropEntry (trim (htmlToText c1)) (trim (htmlToText c2))
                    (Some (trim (htmlToText c3))) (trim (htmlToText c4))]
         outputs].
Proof.
  intros Hpre Ha Hw Hh H1 H2 H3 H4.
  refine (single_row_pipeline _ _ _ c1 c2 c3 c4 hdr _ _ _ _
            (brain_section_found pre a w hdr c1 c2 c3 c4 Hpre Ha Hw Hh H1 H2 H3 H4)
            (component_found a w hdr c1 c2 c3 c4 Ha Hw Hh H1 H2 H3 H4)
            (inputs_section_found hdr c1 c2 c3 c4 Hh H1 H2 H3 H4)
            (rows_of_inputsTable hdr c1 c2 c3 c4 Hh H1 H2 H3 H4)
            (cells_of_dataRow c1 c2 c3 c4 H1 H2 H3 H4)).
Qed.



End UtilsFacts.
